(** * Conway's Game of Life: the board engine of [simpleGOL.py]

    A shallow embedding of class [Board] (construction, [Generate_next_state],
    [expansion], [expand], [transition], [update_boundaries]) and the
    properties of one generation step.

    Python integers are unbounded, so coordinates and counters are [Z].
    A Python [set] of coordinate pairs is a [gset (Z * Z)].  The two set
    objects a board refers to ([self.live], [self.previous]) live in a store
    of set objects addressed by references, because [Generate_next_state]
    rebinds the attributes and mutates the object behind [self.live] in
    place.  Operations that can raise in Python ([set.remove], [min] and
    [max] of an empty sequence) return [option].

    [Board.Draw], which rasterises the board and enlarges the bounds towards
    a minimum viewport while doing so, and class [Game] belong to the display
    loop.  The first group of properties is about construction and calls of
    [Generate_next_state] alone; the display loop is embedded after the
    engine, with the calls to pygame recorded rather than performed, and has
    its own properties at the end. *)

From stdpp Require Import gmap list fin_sets.

Local Open Scope Z_scope.

(** ** Data *)

(** A cell is its [(x, y)] position on the board. *)
Abbreviation Cell := (Z * Z)%type (only parsing).

(** References to set objects, and the store that holds them. *)
Abbreviation ref := positive (only parsing).

Abbreviation Store := (gmap ref (gset Cell)) (only parsing).

(** [alloc v h]: a new object holding [v]; its reference is not in use. *)
Definition alloc (v : gset Cell) (h : Store) : ref * Store :=
  let r := fresh (dom h) in (r, <[r := v]> h).

(** The attributes of a [Board] instance, and the store in which the two
    set-valued attributes are to be read. *)
Record Board : Type := mkBoard {
  store : Store;
  live : ref;
  previous : ref;
  state : Z;
  min_x : Z;
  max_x : Z;
  min_y : Z;
  max_y : Z;
  center_x : Z;
  center_y : Z
}.

(** ** Python primitives *)

(** [range(lo, hi)] *)
Definition range (lo hi : Z) : list Z :=
  (λ i : nat, lo + Z.of_nat i) <$> seq 0 (Z.to_nat (hi - lo)).

(** [min(xs)] and [max(xs)]; both raise [ValueError] on an empty sequence. *)
Definition py_min (xs : list Z) : option Z :=
  match xs with
  | [] => None
  | x :: xs' => Some (foldl Z.min x xs')
  end.

Definition py_max (xs : list Z) : option Z :=
  match xs with
  | [] => None
  | x :: xs' => Some (foldl Z.max x xs')
  end.

(** [s.remove(x)]; raises [KeyError] when [x] is not in [s]. *)
Definition set_remove (x : Cell) (s : gset Cell) : option (gset Cell) :=
  if decide (x ∈ s) then Some (s ∖ {[x]}) else None.

(** ** The methods of [Board] *)

(** [expand]: the list comprehension, then [set(...)]. *)
Definition expand (cell : Cell) : gset Cell :=
  let '(x, y) := cell in
  list_to_set (a ← range (-1) 2; b ← range (-1) 2; [(x + a, y + b)]).

(** [expansion]: [expanded_set] starts empty and is updated with the
    neighbourhood of each cell met while iterating over [positions]. *)
Definition expansion (positions : gset Cell) : gset Cell :=
  foldl (λ expanded_set cell, expanded_set ∪ expand cell) ∅ (elements positions).

(** [transition] *)
Definition transition (cell : Cell) (st : gset Cell) : option bool :=
  neighbours ← set_remove cell (expand cell);
  let neighbours := neighbours ∩ st in
  Some (bool_decide (size neighbours = 3%nat)
        || (bool_decide (size neighbours = 2%nat) && bool_decide (cell ∈ st))).

(** [update_boundaries] *)
Definition update_boundaries (b : Board) : option Board :=
  l ← store b !! live b;
  if bool_decide (size l = 0%nat) then Some b
  else
    mnx ← py_min ((λ a : Cell, a.1) <$> elements l);
    mxx ← py_max ((λ a : Cell, a.1) <$> elements l);
    mny ← py_min ((λ a : Cell, a.2) <$> elements l);
    mxy ← py_max ((λ a : Cell, a.2) <$> elements l);
    Some {| store := store b; live := live b; previous := previous b;
            state := state b;
            min_x := Z.min (min_x b) mnx;
            max_x := Z.max (max_x b) mxx;
            min_y := Z.min (min_y b) mny;
            max_y := Z.max (max_y b) mxy;
            center_x := center_x b; center_y := center_y b |}.

(** [__init__] *)
Definition Board_init (initial_cells : list Cell) : option Board :=
  let '(l, h) := alloc (list_to_set initial_cells) ∅ in
  let '(p, h) := alloc ∅ h in
  b ← update_boundaries
        {| store := h; live := l; previous := p; state := 0;
           min_x := 100; max_x := -100; min_y := 100; max_y := -100;
           center_x := 0; center_y := 0 |};
  Some {| store := store b; live := live b; previous := previous b;
          state := state b;
          min_x := min_x b; max_x := max_x b;
          min_y := min_y b; max_y := max_y b;
          center_x := 0; center_y := 0 |}.

(** One iteration of the loop of [Generate_next_state]: the snapshot is read
    through [self.previous] and the cell is added to the object behind
    [self.live]. *)
Definition next_state_iter (lv pv : ref) (h : Store) (cell : Cell) : option Store :=
  snapshot ← h !! pv;
  alive ← transition cell snapshot;
  if alive : bool then
    cur ← h !! lv;
    Some (<[lv := cur ∪ {[cell]}]> h)
  else Some h.

Fixpoint next_state_loop (lv pv : ref) (h : Store) (candidate : list Cell)
  : option Store :=
  match candidate with
  | [] => Some h
  | cell :: rest =>
      h' ← next_state_iter lv pv h cell;
      next_state_loop lv pv h' rest
  end.

(** [Generate_next_state] *)
Definition Generate_next_state (b : Board) : option Board :=
  l ← store b !! live b;
  if bool_decide (size l = 0%nat) then Some b
  else
    let state' := state b + 1 in
    let '(pv, h) := alloc l (store b) in
    cur ← h !! live b;
    let candidate := expansion cur in
    let '(lv, h) := alloc ∅ h in
    h ← next_state_loop lv pv h (elements candidate);
    update_boundaries
      {| store := h; live := lv; previous := pv; state := state';
         min_x := min_x b; max_x := max_x b;
         min_y := min_y b; max_y := max_y b;
         center_x := center_x b; center_y := center_y b |}.

(** [n] successive calls of [Generate_next_state]. *)
Fixpoint steps (n : nat) (b : Board) : option Board :=
  match n with
  | O => Some b
  | S n' => b' ← Generate_next_state b; steps n' b'
  end.

(** The content of the live set of a board. *)
Definition live_cells (b : Board) : option (gset Cell) := store b !! live b.

Definition previous_cells (b : Board) : option (gset Cell) := store b !! previous b.

(** The seed of [main]. *)
Definition initial_cells : list Cell := [(0,1); (1,0); (-1,-1); (0,-1); (1,-1)].

Definition blinker : list Cell := [(-1,0); (0,0); (1,0)].

(** ** Reference notions used to state the properties *)

(** Chebyshev distance between two cells. *)
Definition chebyshev (c d : Cell) : Z :=
  Z.max (Z.abs (d.1 - c.1)) (Z.abs (d.2 - c.2)).

(** The number of the 8 cells around [c] that are members of [st]. *)
Definition live_neighbours (c : Cell) (st : gset Cell) : nat :=
  size (filter (λ d, chebyshev c d = 1) st).

(** The rule of the game, for cell [c] against generation [st]. *)
Definition life_rule (c : Cell) (st : gset Cell) : Prop :=
  live_neighbours c st = 3%nat ∨ (live_neighbours c st = 2%nat ∧ c ∈ st).

(** What [transition] returns, as a boolean expression. *)
Definition survives (c : Cell) (st : gset Cell) : bool :=
  bool_decide (live_neighbours c st = 3%nat)
  || (bool_decide (live_neighbours c st = 2%nat) && bool_decide (c ∈ st)).

(** The generation that follows [st]: the candidates that pass the rule. *)
Definition next_live (st : gset Cell) : gset Cell :=
  filter (λ c, survives c st = true) (expansion st).

(** [bounds()]: the four boundary attributes. *)
Definition bounds (b : Board) : Z * Z * Z * Z :=
  (min_x b, max_x b, min_y b, max_y b).

(** Cell [c] lies in the box. *)
Definition in_box (bx : Z * Z * Z * Z) (c : Cell) : Prop :=
  let '(mnx, mxx, mny, mxy) := bx in
  (mnx ≤ c.1 ∧ c.1 ≤ mxx) ∧ (mny ≤ c.2 ∧ c.2 ≤ mxy).

Definition box_contains (bx : Z * Z * Z * Z) (S : gset Cell) : Prop :=
  ∀ c, c ∈ S → in_box bx c.

(** Box [bx] is included in box [bx']. *)
Definition box_le (bx bx' : Z * Z * Z * Z) : Prop :=
  let '(mnx, mxx, mny, mxy) := bx in
  let '(mnx', mxx', mny', mxy') := bx' in
  (mnx' ≤ mnx ∧ mxx ≤ mxx') ∧ (mny' ≤ mny ∧ mxy ≤ mxy').

(** [bx] is the smallest box that contains every cell of [S]. *)
Definition smallest_box (S : gset Cell) (bx : Z * Z * Z * Z) : Prop :=
  box_contains bx S ∧ ∀ bx', box_contains bx' S → box_le bx bx'.

(** The limits that the initial values of [__init__] put on a box. *)
Definition within_sentinel (bx : Z * Z * Z * Z) : Prop :=
  let '(mnx, mxx, mny, mxy) := bx in
  (mnx ≤ 100 ∧ -100 ≤ mxx) ∧ (mny ≤ 100 ∧ -100 ≤ mxy).

(** [bx] is the smallest box within the limits of the initial values that
    contains every cell of [S]. *)
Definition smallest_sentinel_box (S : gset Cell) (bx : Z * Z * Z * Z) : Prop :=
  box_contains bx S ∧ within_sentinel bx
  ∧ ∀ bx', box_contains bx' S → within_sentinel bx' → box_le bx bx'.

(** [new] is the least of [old] and the values of [f] on [S]. *)
Definition least_of (f : Cell → Z) (old : Z) (S : gset Cell) (new : Z) : Prop :=
  new ≤ old ∧ (∀ c, c ∈ S → new ≤ f c) ∧ (new = old ∨ ∃ c, c ∈ S ∧ new = f c).

(** [new] is the greatest of [old] and the values of [f] on [S]. *)
Definition greatest_of (f : Cell → Z) (old : Z) (S : gset Cell) (new : Z) : Prop :=
  old ≤ new ∧ (∀ c, c ∈ S → f c ≤ new) ∧ (new = old ∨ ∃ c, c ∈ S ∧ new = f c).

(** The bounds of [b'] are those of [b] widened by the cells of [S]. *)
Definition widened (b : Board) (S : gset Cell) (b' : Board) : Prop :=
  least_of fst (min_x b) S (min_x b') ∧ greatest_of fst (max_x b) S (max_x b')
  ∧ least_of snd (min_y b) S (min_y b') ∧ greatest_of snd (max_y b) S (max_y b').

(** [b'] differs from [b] at most in its four boundary attributes. *)
Definition same_but_bounds (b b' : Board) : Prop :=
  store b' = store b ∧ live b' = live b ∧ previous b' = previous b
  ∧ state b' = state b ∧ center_x b' = center_x b ∧ center_y b' = center_y b.

(** Every cell present in the live set in the course of [n] calls of
    [Generate_next_state] on [b], the live set of [b] included. *)
Fixpoint ever_live (n : nat) (b : Board) : option (gset Cell) :=
  l ← live_cells b;
  match n with
  | O => Some l
  | S n' =>
      b' ← Generate_next_state b;
      H ← ever_live n' b';
      Some (l ∪ H)
  end.

(** Translation of a cell. *)
Definition translate (dx dy : Z) (c : Cell) : Cell := (c.1 + dx, c.2 + dy).

(** The attributes of a board before [__init__] calls [update_boundaries]:
    the four boundary attributes hold their initial values. *)
Definition sentinel_board (h : Store) (l p : ref) : Board :=
  {| store := h; live := l; previous := p; state := 0;
     min_x := 100; max_x := -100; min_y := 100; max_y := -100;
     center_x := 0; center_y := 0 |}.

(** The bounds of [b] are the initial values widened by the cells of [H]. *)
Definition bounds_of_history (H : gset Cell) (b : Board) : Prop :=
  least_of fst 100 H (min_x b) ∧ greatest_of fst (-100) H (max_x b)
  ∧ least_of snd 100 H (min_y b) ∧ greatest_of snd (-100) H (max_y b).

(** Concrete boards: what [Board(...)] builds from the blinker, from the
    seed of [main], from no cell and from one far cell. *)
Definition board_at (cells : list Cell) (bx : Z * Z * Z * Z) : Board :=
  let '(mnx, mxx, mny, mxy) := bx in
  {| store := <[2%positive := ∅]> {[1%positive := list_to_set cells]};
     live := 1%positive; previous := 2%positive; state := 0;
     min_x := mnx; max_x := mxx; min_y := mny; max_y := mxy;
     center_x := 0; center_y := 0 |}.

Definition vertical : list Cell := [(0,-1); (0,0); (0,1)].

Definition blinker_board : Board := board_at blinker (-1, 1, 0, 0).

Definition glider_board : Board := board_at initial_cells (-1, 1, -1, 1).

Definition extinct_board : Board := board_at [] (100, -100, 100, -100).

Definition far_board : Board := board_at [(200, 0)] (100, 200, 0, 0).

(** ** The display loop: [Board.Draw] and class [Game]

    pygame itself is outside the model.  What the code asks of it is kept:
    a call [screen.fill(color, rect)] is recorded as a [Fill] holding the
    colour and the rectangle that [pygame.Rect] builds, whose four values
    are C ints, and the events that [pygame.event.get()] returns on each
    pass of the loop are an input.  [pygame.display.set_mode] refuses a
    negative size; whether it can fail for another reason depends on the
    display and is not part of the model. *)

(** [a // b]; raises [ZeroDivisionError] when [b] is 0. *)
Definition py_floordiv (a b : Z) : option Z :=
  if decide (b = 0) then None else Some (a `div` b).

(** The value that a C [int] holds for the integer [z]: [z] itself from
    [-2^31] to [2^31 - 1], and [z] reduced modulo [2^32] outside. *)
Definition int32 (z : Z) : Z := (z + 2 ^ 31) `mod` 2 ^ 32 - 2 ^ 31.

(** A rectangle of pygame; its four values are C ints. *)
Record Rect : Type := mkRect {
  rect_left : Z;
  rect_top : Z;
  rect_width : Z;
  rect_height : Z
}.

(** [pygame.Rect((left, top), (width, height))] *)
Definition pygame_Rect (left_top width_height : Z * Z) : Rect :=
  let '(l, t) := left_top in
  let '(w, h) := width_height in
  mkRect (int32 l) (int32 t) (int32 w) (int32 h).

(** [screen.fill(color)] and [screen.fill(color, rect)] *)
Record Fill : Type := mkFill {
  fill_color : Z * Z * Z;
  fill_rect : option Rect
}.

Definition min_dimension : Z := 50.

(** The body of the loop of [Board.Draw], for one live cell. *)
Definition draw_cell (screen_width screen_height cx cy pixels : Z) (cell : Cell)
  : option Fill :=
  let '(x, y) := cell in
  hx ← py_floordiv screen_width 2;
  hy ← py_floordiv screen_height 2;
  let box := pygame_Rect (hx + (x - cx) * pixels, hy + (y - cy) * pixels)
                         (pixels, pixels) in
  Some (mkFill (0, 0, 0) (Some box)).

(** [Board.Draw]; [cx] and [cy] are its locals [center_x] and [center_y].
    The result is the board after the call and the fills asked of the
    screen, in the order of the calls. *)
Definition Draw (screen_width screen_height : Z) (b : Board)
  : option (Board * list Fill) :=
  let width := max_x b - min_x b + 1 in
  let height := max_y b - min_y b + 1 in
  cx ← py_floordiv (min_x b + max_x b) 2;
  cy ← py_floordiv (min_y b + max_y b) 2;
  b ← (if bool_decide (width < min_dimension) || bool_decide (height < min_dimension)
       then
         h1 ← py_floordiv min_dimension 2;
         let mnx := Z.min (min_x b) (cx - h1) in
         h2 ← py_floordiv min_dimension 2;
         let mxx := Z.max (max_x b) (cx + h2) in
         h3 ← py_floordiv min_dimension 2;
         let mny := Z.min (min_y b) (cy - h3) in
         h4 ← py_floordiv min_dimension 2;
         let mxy := Z.max (max_y b) (cy + h4) in
         Some {| store := store b; live := live b; previous := previous b;
                 state := state b;
                 min_x := mnx; max_x := mxx; min_y := mny; max_y := mxy;
                 center_x := center_x b; center_y := center_y b |}
       else Some b);
  qx ← py_floordiv screen_width (width + 1);
  qy ← py_floordiv screen_height (height + 1);
  let pixels := Z.min qx qy in
  l ← store b !! live b;
  fills ← mapM (draw_cell screen_width screen_height cx cy pixels) (elements l);
  Some (b, fills).

(** The attributes of a [Game] instance, the pygame objects apart. *)
Record Game : Type := mkGame {
  width : Z;
  height : Z;
  ttu : Z;
  ttn : Z;
  board : Board
}.

(** [pygame.display.set_mode(size)], as far as the game depends on it: it
    raises [pygame.error] for a negative width or height. *)
Definition set_mode (size : Z * Z) : option unit :=
  let '(w, h) := size in
  if bool_decide (w < 0) || bool_decide (h < 0) then None else Some tt.

(** [Game.__init__] *)
Definition Game_init (size : Z * Z) (board : Board) : option Game :=
  let '(w, h) := size in
  _ ← set_mode size;
  Some {| width := w; height := h; ttu := 2; ttn := 100; board := board |}.

(** The events of [pygame.event.get()], by their [type]. *)
Inductive event : Type :=
  | QUIT
  | other_event.

(** [Game.ProcessEvent]: [true] when it calls [sys.exit()]. *)
Definition ProcessEvent (ev : event) : bool :=
  match ev with
  | QUIT => true
  | other_event => false
  end.

(** [Game.Draw] *)
Definition Game_Draw (g : Game) : option (Game * list Fill) :=
  '(b, fills) ← Draw (width g) (height g) (board g);
  Some ({| width := width g; height := height g; ttu := ttu g; ttn := ttn g;
           board := b |},
        mkFill (255, 255, 255) None :: fills).

(** [Game.Tick] *)
Definition Tick (g : Game) : option Game :=
  if bool_decide (ttn g ≠ 0) then
    Some {| width := width g; height := height g; ttu := ttu g;
            ttn := ttn g - 1; board := board g |}
  else
    b ← Generate_next_state (board g);
    Some {| width := width g; height := height g; ttu := ttu g;
            ttn := ttu g; board := b |}.

(** [n] successive calls of [Game.Tick]. *)
Fixpoint ticks (n : nat) (g : Game) : option Game :=
  match n with
  | O => Some g
  | S n' => g' ← Tick g; ticks n' g'
  end.

(** [Game.RunGameLoop], for as many passes of its [while True] as there are
    batches of pending events.  The result is [None] when an exception other
    than [SystemExit] is raised; otherwise whether [sys.exit()] was called,
    the game at that point, and the fills of each completed pass. *)
Fixpoint RunGameLoop (pending : list (list event)) (g : Game)
  : option (bool * Game * list (list Fill)) :=
  match pending with
  | [] => Some (false, g, [])
  | evs :: rest =>
      if existsb ProcessEvent evs then Some (true, g, [])
      else
        g ← Tick g;
        '(g, frame) ← Game_Draw g;
        '(exited, g', frames) ← RunGameLoop rest g;
        Some (exited, g', frame :: frames)
  end.

(** The game that [main] builds. *)
Definition main_game : option Game :=
  b ← Board_init initial_cells;
  Game_init (800, 800) b.

(** ** More reference notions *)

(** The number of generations computed by [n] calls of [Tick], for a game
    whose countdown is at [tn] and is reloaded with [tu]. *)
Definition generations_due (tn tu : Z) (n : nat) : nat :=
  if decide (Z.of_nat n ≤ tn) then 0%nat
  else Z.to_nat ((Z.of_nat n - tn - 1) `div` (tu + 1) + 1).

(** Two rectangles of positive size share no pixel. *)
Definition rects_disjoint (r1 r2 : Rect) : Prop :=
  rect_left r1 + rect_width r1 ≤ rect_left r2
  ∨ rect_left r2 + rect_width r2 ≤ rect_left r1
  ∨ rect_top r1 + rect_height r1 ≤ rect_top r2
  ∨ rect_top r2 + rect_height r2 ≤ rect_top r1.

(** The bounds are the initial ones, or are not inverted. *)
Definition bounds_sane (b : Board) : Prop :=
  ((min_x b = 100 ∧ max_x b = -100) ∨ min_x b ≤ max_x b)
  ∧ ((min_y b = 100 ∧ max_y b = -100) ∨ min_y b ≤ max_y b).

(** The rectangle that [Draw] fills for a cell. *)
Definition cell_rect (screen_width screen_height cx cy pixels : Z) (c : Cell)
  : Rect :=
  pygame_Rect (screen_width `div` 2 + (c.1 - cx) * pixels,
               screen_height `div` 2 + (c.2 - cy) * pixels) (pixels, pixels).

(** The side of the squares that [Draw] fills. *)
Definition draw_pixels (screen_width screen_height : Z) (b : Board) : Z :=
  Z.min (screen_width `div` (max_x b - min_x b + 1 + 1))
        (screen_height `div` (max_y b - min_y b + 1 + 1)).

(** The fills of [Draw]. *)
Definition draw_fills (screen_width screen_height : Z) (b : Board)
    (l : gset Cell) : list Fill :=
  (λ c, mkFill (0, 0, 0)
          (Some (cell_rect screen_width screen_height
                   ((min_x b + max_x b) `div` 2) ((min_y b + max_y b) `div` 2)
                   (draw_pixels screen_width screen_height b) c)))
  <$> elements l.

(** The board that [Draw] leaves. *)
Definition drawn (b : Board) : Board :=
  if bool_decide (max_x b - min_x b + 1 < 50)
     || bool_decide (max_y b - min_y b + 1 < 50)
  then {| store := store b; live := live b; previous := previous b;
          state := state b;
          min_x := Z.min (min_x b) ((min_x b + max_x b) `div` 2 - 25);
          max_x := Z.max (max_x b) ((min_x b + max_x b) `div` 2 + 25);
          min_y := Z.min (min_y b) ((min_y b + max_y b) `div` 2 - 25);
          max_y := Z.max (max_y b) ((min_y b + max_y b) `div` 2 + 25);
          center_x := center_x b; center_y := center_y b |}
  else b.

(** No batch of pending events holds an event that makes [ProcessEvent]
    call [sys.exit()]. *)
Definition no_quit (pending : list (list event)) : bool :=
  forallb (λ evs, negb (existsb ProcessEvent evs)) pending.

(** The number of generations computed by the first [n] calls of [Tick] on
    a game as [Game.__init__] leaves it. *)
Definition generations_after (n : nat) : nat :=
  if (n <=? 100)%nat then 0%nat else ((n - 98) / 3)%nat.

(** What holds of a board between two passes of the loop. *)
Definition pass_inv (b : Board) (l : gset Cell) : Prop :=
  live_cells b = Some l ∧ box_contains (bounds b) l ∧ bounds_sane b.

(** The seed of [main], one cell to the right and one cell down. *)
Definition shifted_glider_board : Board :=
  board_at (translate 1 (-1) <$> initial_cells) (0, 2, -2, 0).

(** The game that [main] builds. *)
Definition glider_game : Game :=
  {| width := 800; height := 800; ttu := 2; ttn := 100; board := glider_board |}.

(** A board whose bounds make [Draw] divide by zero. *)
Definition undrawable_board : Board := board_at blinker (1, -1, 0, 0).

(** ** Neighbourhoods *)

Lemma range_m1_2 : range (-1) 2 = [-1; 0; 1].
Proof. reflexivity. Qed.

Lemma expand_cells x y :
  expand (x, y) =
  list_to_set [(x + -1, y + -1); (x + -1, y + 0); (x + -1, y + 1);
               (x + 0, y + -1); (x + 0, y + 0); (x + 0, y + 1);
               (x + 1, y + -1); (x + 1, y + 0); (x + 1, y + 1)].
Proof. reflexivity. Qed.

Lemma elem_of_expand (c d : Cell) : d ∈ expand c ↔ chebyshev c d ≤ 1.
Proof.
  destruct c as [x y], d as [u v].
  rewrite expand_cells, elem_of_list_to_set. unfold chebyshev; simpl.
  repeat rewrite elem_of_cons. rewrite elem_of_nil.
  split.
  - intros H. repeat (destruct H as [H|H]; [injection H as -> ->; lia|]).
    destruct H.
  - intros H.
    assert (Hu : u = x + -1 ∨ u = x + 0 ∨ u = x + 1) by lia.
    assert (Hv : v = y + -1 ∨ v = y + 0 ∨ v = y + 1) by lia.
    destruct Hu as [->|[->| ->]], Hv as [->|[->| ->]]; tauto.
Qed.

Lemma expand_self (c : Cell) : c ∈ expand c.
Proof.
  apply elem_of_expand. destruct c as [x y]. unfold chebyshev; simpl. lia.
Qed.

Lemma size_expand (c : Cell) : size (expand c) = 9%nat.
Proof.
  destruct c as [x y]. rewrite expand_cells.
  rewrite size_list_to_set; [reflexivity|].
  repeat (apply NoDup_cons; split;
    [repeat rewrite elem_of_cons; rewrite elem_of_nil;
     intros H; repeat (destruct H as [H|H]; [injection H; lia|]); exact H|]).
  apply NoDup_nil; exact I.
Qed.

Lemma set_remove_expand (c : Cell) :
  set_remove c (expand c) = Some (expand c ∖ {[c]}).
Proof.
  unfold set_remove. destruct (decide (c ∈ expand c)) as [|Hn]; [done|].
  destruct Hn. apply expand_self.
Qed.

(** The set whose size [transition] tests is the set of live cells at
    distance exactly 1. *)
Lemma neighbours_filter (c : Cell) (st : gset Cell) :
  (expand c ∖ {[c]}) ∩ st = filter (λ d, chebyshev c d = 1) st.
Proof.
  apply set_eq. intros d.
  rewrite elem_of_intersection, elem_of_difference, elem_of_singleton,
    elem_of_filter, elem_of_expand.
  destruct c as [x y], d as [u v]. unfold chebyshev; simpl.
  split.
  - intros [[Hle Hne] Hin]. split; [|done].
    assert (¬ (u = x ∧ v = y)) by (intros [-> ->]; done). lia.
  - intros [Heq Hin]. split; [|done]. split; [lia|].
    intros [= -> ->]. lia.
Qed.

Lemma transition_survives (c : Cell) (st : gset Cell) :
  transition c st = Some (survives c st).
Proof.
  unfold transition. rewrite set_remove_expand. simpl.
  rewrite neighbours_filter. reflexivity.
Qed.

Lemma survives_life_rule (c : Cell) (st : gset Cell) :
  survives c st = true ↔ life_rule c st.
Proof.
  unfold survives, life_rule.
  rewrite orb_true_iff, andb_true_iff, !bool_decide_eq_true. tauto.
Qed.

(** ** The candidate set *)

Lemma expansion_foldl (cs : list Cell) (acc : gset Cell) (d : Cell) :
  d ∈ foldl (λ expanded_set cell, expanded_set ∪ expand cell) acc cs
  ↔ d ∈ acc ∨ ∃ p, p ∈ cs ∧ d ∈ expand p.
Proof.
  revert acc. induction cs as [|c cs IH]; intros acc; simpl.
  - split; [tauto|]. intros [H|(p & Hp & _)]; [exact H|].
    apply elem_of_nil in Hp. destruct Hp.
  - rewrite IH, elem_of_union. split.
    + intros [[H|H]|(p & Hp & Hd)].
      * left; exact H.
      * right. exists c. split; [left|exact H].
      * right. exists p. split; [right; exact Hp|exact Hd].
    + intros [H|(p & Hp & Hd)]; [tauto|].
      apply elem_of_cons in Hp as [->|Hp]; [tauto|].
      right. exists p. tauto.
Qed.

Lemma elem_of_expansion (positions : gset Cell) (d : Cell) :
  d ∈ expansion positions ↔ ∃ p, p ∈ positions ∧ d ∈ expand p.
Proof.
  unfold expansion. rewrite expansion_foldl. split.
  - intros [H|(p & Hp & Hd)]; [apply elem_of_empty in H; destruct H|].
    exists p. split; [apply elem_of_elements; exact Hp|exact Hd].
  - intros (p & Hp & Hd). right. exists p.
    split; [apply elem_of_elements; exact Hp|exact Hd].
Qed.

Lemma next_live_subseteq (st : gset Cell) : next_live st ⊆ expansion st.
Proof. intros c Hc. unfold next_live in Hc. apply elem_of_filter in Hc. tauto. Qed.

(** A cell outside the candidate set has no live cell around it. *)
Lemma live_neighbours_outside (c : Cell) (st : gset Cell) :
  c ∉ expansion st → live_neighbours c st = 0%nat.
Proof.
  intros Hc. unfold live_neighbours. apply size_empty_iff.
  intros d. split; [|intros Hd; apply elem_of_empty in Hd; destruct Hd].
  intros Hd. apply elem_of_filter in Hd as [Hd1 Hd]. destruct Hc.
  apply elem_of_expansion. exists d. split; [exact Hd|].
  apply elem_of_expand. destruct c, d. unfold chebyshev in *; simpl in *. lia.
Qed.

Lemma elem_of_next_live (c : Cell) (st : gset Cell) :
  c ∈ next_live st ↔ life_rule c st.
Proof.
  unfold next_live. rewrite elem_of_filter, survives_life_rule.
  split; [tauto|]. intros Hr. split; [exact Hr|].
  destruct (decide (c ∈ expansion st)) as [|Hn]; [done|].
  apply live_neighbours_outside in Hn. unfold life_rule in Hr. lia.
Qed.

Lemma next_live_empty : next_live ∅ = ∅.
Proof. reflexivity. Qed.

(** ** [min] and [max] of a sequence *)

Lemma foldl_min_spec (xs : list Z) (a : Z) :
  let m := foldl Z.min a xs in
  (m = a ∨ m ∈ xs) ∧ m ≤ a ∧ ∀ x, x ∈ xs → m ≤ x.
Proof.
  revert a. induction xs as [|y xs IH]; intros a; simpl.
  - split; [tauto|]. split; [lia|]. intros x Hx. apply elem_of_nil in Hx. tauto.
  - destruct (IH (Z.min a y)) as ([Hm|Hm] & Hle & Hall); simpl in *.
    + split; [|split; [lia|]].
      * destruct (Z.min_spec a y) as [[_ Ha]|[_ Ha]];
          [left; congruence|right; rewrite Hm, Ha; left].
      * intros x [->|Hx]%elem_of_cons; [lia|auto].
    + split; [right; right; exact Hm|]. split; [lia|].
      intros x [->|Hx]%elem_of_cons; [lia|auto].
Qed.

Lemma foldl_max_spec (xs : list Z) (a : Z) :
  let m := foldl Z.max a xs in
  (m = a ∨ m ∈ xs) ∧ a ≤ m ∧ ∀ x, x ∈ xs → x ≤ m.
Proof.
  revert a. induction xs as [|y xs IH]; intros a; simpl.
  - split; [tauto|]. split; [lia|]. intros x Hx. apply elem_of_nil in Hx. tauto.
  - destruct (IH (Z.max a y)) as ([Hm|Hm] & Hle & Hall); simpl in *.
    + split; [|split; [lia|]].
      * destruct (Z.max_spec a y) as [[_ Ha]|[_ Ha]];
          [right; rewrite Hm, Ha; left|left; congruence].
      * intros x [->|Hx]%elem_of_cons; [lia|auto].
    + split; [right; right; exact Hm|]. split; [lia|].
      intros x [->|Hx]%elem_of_cons; [lia|auto].
Qed.

Lemma py_min_elements (f : Cell → Z) (l : gset Cell) :
  size l ≠ 0%nat →
  ∃ m, py_min (f <$> elements l) = Some m
       ∧ (∀ c, c ∈ l → m ≤ f c) ∧ (∃ c, c ∈ l ∧ m = f c).
Proof.
  intros Hne. unfold size, set_size in Hne; simpl in Hne.
  assert (Hel : ∀ c, c ∈ elements l ↔ c ∈ l) by (intros; apply elem_of_elements).
  destruct (elements l) as [|c0 cs]; [done|]. simpl.
  eexists; split; [reflexivity|].
  destruct (foldl_min_spec (f <$> cs) (f c0)) as (Hm & Hle & Hall).
  simpl in *. split.
  - intros c [->|Hc]%Hel%elem_of_cons; [exact Hle|].
    apply Hall. apply list_elem_of_fmap_2. exact Hc.
  - destruct Hm as [Hm|Hm].
    + exists c0. split; [apply Hel; left|exact Hm].
    + apply list_elem_of_fmap in Hm as (c & Hc & Hin).
      exists c. split; [apply Hel; right; exact Hin|exact Hc].
Qed.

Lemma py_max_elements (f : Cell → Z) (l : gset Cell) :
  size l ≠ 0%nat →
  ∃ m, py_max (f <$> elements l) = Some m
       ∧ (∀ c, c ∈ l → f c ≤ m) ∧ (∃ c, c ∈ l ∧ m = f c).
Proof.
  intros Hne. unfold size, set_size in Hne; simpl in Hne.
  assert (Hel : ∀ c, c ∈ elements l ↔ c ∈ l) by (intros; apply elem_of_elements).
  destruct (elements l) as [|c0 cs]; [done|]. simpl.
  eexists; split; [reflexivity|].
  destruct (foldl_max_spec (f <$> cs) (f c0)) as (Hm & Hle & Hall).
  simpl in *. split.
  - intros c [->|Hc]%Hel%elem_of_cons; [exact Hle|].
    apply Hall. apply list_elem_of_fmap_2. exact Hc.
  - destruct Hm as [Hm|Hm].
    + exists c0. split; [apply Hel; left|exact Hm].
    + apply list_elem_of_fmap in Hm as (c & Hc & Hin).
      exists c. split; [apply Hel; right; exact Hin|exact Hc].
Qed.

(** ** The store *)


Lemma alloc_fresh (v : gset Cell) (h : Store) :
  (alloc v h).1 ∉ dom h.
Proof. unfold alloc; simpl. apply is_fresh. Qed.

Lemma alloc_lookup_old (v : gset Cell) (h : Store) (r : ref) (w : gset Cell) :
  h !! r = Some w → (alloc v h).2 !! r = Some w ∧ r ≠ (alloc v h).1.
Proof.
  intros Hr. pose proof (alloc_fresh v h) as Hf.
  assert (Hne : r ≠ (alloc v h).1).
  { intros E. subst r. apply Hf. apply elem_of_dom. exists w. exact Hr. }
  split; [|exact Hne]. unfold alloc in *; simpl in *.
  rewrite lookup_insert_ne; [exact Hr|].
  intros E. apply Hne. symmetry. exact E.
Qed.

Lemma alloc_lookup_new (v : gset Cell) (h : Store) :
  (alloc v h).2 !! (alloc v h).1 = Some v.
Proof. unfold alloc; simpl. apply lookup_insert_eq. Qed.

(** ** The loop of [Generate_next_state] *)

(** While the loop runs, the snapshot behind [pv] is read and never written:
    the only object written is the one behind [lv], which collects the
    candidates that pass the rule. *)
Lemma next_state_loop_spec (lv pv : ref) (snap : gset Cell) (cs : list Cell) :
  lv ≠ pv →
  ∀ (h : Store) (acc : gset Cell),
    h !! pv = Some snap → h !! lv = Some acc →
    next_state_loop lv pv h cs
    = Some (<[lv := acc ∪ list_to_set (filter (λ c, survives c snap = true) cs)]> h).
Proof.
  intros Hne. induction cs as [|c cs IH]; intros h acc Hpv Hlv; simpl.
  - f_equal. rewrite union_empty_r_L. symmetry. apply insert_id. exact Hlv.
  - unfold next_state_iter. rewrite Hpv; simpl.
    rewrite transition_survives; simpl.
    destruct (survives c snap) eqn:Hs.
    + rewrite Hlv; simpl.
      rewrite (IH _ (acc ∪ {[c]})).
      * rewrite insert_insert_eq. f_equal. f_equal.
        rewrite filter_cons_True by exact Hs. simpl.
        apply set_eq. intros d. rewrite !elem_of_union, elem_of_singleton. tauto.
      * rewrite lookup_insert_ne by exact Hne. exact Hpv.
      * apply lookup_insert_eq.
    + simpl. rewrite (IH h acc Hpv Hlv). f_equal. f_equal.
      rewrite filter_cons_False; [reflexivity|]. rewrite Hs. discriminate.
Qed.

Lemma loop_result_next_live (st : gset Cell) :
  ∅ ∪ list_to_set (filter (λ c, survives c st = true) (elements (expansion st)))
  = next_live st.
Proof.
  apply set_eq. intros c. unfold next_live.
  rewrite elem_of_union, elem_of_list_to_set, list_elem_of_filter,
    elem_of_elements, elem_of_filter, elem_of_empty. tauto.
Qed.

(** ** [update_boundaries] *)

Lemma least_of_empty f old : least_of f old ∅ old.
Proof.
  split; [lia|]. split; [|left; reflexivity].
  intros c Hc. apply elem_of_empty in Hc. destruct Hc.
Qed.

Lemma greatest_of_empty f old : greatest_of f old ∅ old.
Proof.
  split; [lia|]. split; [|left; reflexivity].
  intros c Hc. apply elem_of_empty in Hc. destruct Hc.
Qed.

Lemma least_of_min f old S m :
  (∀ c, c ∈ S → m ≤ f c) → (∃ c, c ∈ S ∧ m = f c) →
  least_of f old S (Z.min old m).
Proof.
  intros Hall (c & Hc & Hm). split; [lia|]. split.
  - intros d Hd. specialize (Hall d Hd). lia.
  - destruct (Z.min_spec old m) as [[_ ->]|[_ ->]]; [left; reflexivity|].
    right. exists c. tauto.
Qed.

Lemma greatest_of_max f old S m :
  (∀ c, c ∈ S → f c ≤ m) → (∃ c, c ∈ S ∧ m = f c) →
  greatest_of f old S (Z.max old m).
Proof.
  intros Hall (c & Hc & Hm). split; [lia|]. split.
  - intros d Hd. specialize (Hall d Hd). lia.
  - destruct (Z.max_spec old m) as [[_ ->]|[_ ->]]; [|left; reflexivity].
    right. exists c. tauto.
Qed.

Lemma update_boundaries_empty (b : Board) (l : gset Cell) :
  live_cells b = Some l → size l = 0%nat → update_boundaries b = Some b.
Proof.
  unfold live_cells, update_boundaries. intros -> Hs; simpl.
  rewrite bool_decide_eq_true_2 by exact Hs. reflexivity.
Qed.

Lemma update_boundaries_spec (b : Board) (l : gset Cell) :
  live_cells b = Some l →
  ∃ b', update_boundaries b = Some b' ∧ same_but_bounds b b' ∧ widened b l b'.
Proof.
  intros Hl. destruct (decide (size l = 0%nat)) as [Hs|Hs].
  - exists b. split; [eapply update_boundaries_empty; eassumption|].
    split; [repeat split|].
    apply size_empty_iff, leibniz_equiv in Hs. subst l.
    unfold widened.
    auto using least_of_empty, greatest_of_empty.
  - unfold live_cells in Hl. unfold update_boundaries. rewrite Hl; simpl.
    rewrite bool_decide_eq_false_2 by exact Hs.
    destruct (py_min_elements (λ a, a.1) l Hs) as (mnx & -> & Hmnx1 & Hmnx2).
    destruct (py_max_elements (λ a, a.1) l Hs) as (mxx & -> & Hmxx1 & Hmxx2).
    destruct (py_min_elements (λ a, a.2) l Hs) as (mny & -> & Hmny1 & Hmny2).
    destruct (py_max_elements (λ a, a.2) l Hs) as (mxy & -> & Hmxy1 & Hmxy2).
    simpl. eexists; split; [reflexivity|].
    split; [repeat split|].
    unfold widened; simpl.
    split; [apply least_of_min; assumption|].
    split; [apply greatest_of_max; assumption|].
    split; [apply least_of_min; assumption|].
    apply greatest_of_max; assumption.
Qed.

(** ** [Generate_next_state] *)

Lemma Generate_next_state_empty (b : Board) (l : gset Cell) :
  live_cells b = Some l → size l = 0%nat → Generate_next_state b = Some b.
Proof.
  unfold live_cells, Generate_next_state. intros -> Hs; simpl.
  rewrite bool_decide_eq_true_2 by exact Hs. reflexivity.
Qed.

(** One call on a board whose live set [l] is not empty. *)
Lemma Generate_next_state_spec (b : Board) (l : gset Cell) :
  live_cells b = Some l → size l ≠ 0%nat →
  ∃ b', Generate_next_state b = Some b'
    ∧ state b' = state b + 1
    ∧ center_x b' = center_x b ∧ center_y b' = center_y b
    ∧ (live b' ∉ dom (store b)) ∧ (previous b' ∉ dom (store b))
    ∧ previous b' ≠ live b'
    ∧ previous_cells b' = Some l
    ∧ live_cells b' = Some (next_live l)
    ∧ (∀ r w, store b !! r = Some w → store b' !! r = Some w)
    ∧ widened b (next_live l) b'.
Proof.
  intros Hl Hs. unfold live_cells in Hl.
  unfold Generate_next_state. rewrite Hl; simpl.
  rewrite bool_decide_eq_false_2 by exact Hs.
  pose proof (alloc_fresh l (store b)) as Hpv.
  pose proof (alloc_lookup_new l (store b)) as Hpvl.
  destruct (alloc_lookup_old l (store b) _ _ Hl) as [Hl1 Hne1].
  pose proof (λ r w, alloc_lookup_old l (store b) r w) as Hold1.
  unfold alloc in Hpv, Hpvl, Hl1, Hne1, Hold1; simpl in Hpv, Hpvl, Hl1, Hne1, Hold1.
  set (pv := fresh (dom (store b))) in *.
  set (h1 := <[pv:=l]> (store b)) in *.
  rewrite Hl1; simpl.
  pose proof (alloc_fresh ∅ h1) as Hlv.
  pose proof (alloc_lookup_new ∅ h1) as Hlvl.
  destruct (alloc_lookup_old ∅ h1 _ _ Hpvl) as [Hpv2 Hne2].
  pose proof (λ r w, alloc_lookup_old ∅ h1 r w) as Hold2.
  unfold alloc in Hlv, Hlvl, Hpv2, Hne2, Hold2; simpl in Hlv, Hlvl, Hpv2, Hne2, Hold2.
  set (lv := fresh (dom h1)) in *.
  set (h2 := <[lv:=∅]> h1) in *.
  assert (Hne : lv ≠ pv) by (intros E; apply Hne2; symmetry; exact E).
  rewrite (next_state_loop_spec lv pv l _ Hne h2 ∅ Hpv2 Hlvl).
  rewrite loop_result_next_live. simpl.
  set (b1 := {| store := <[lv:=next_live l]> h2; live := lv |}).
  assert (Hb1 : live_cells b1 = Some (next_live l)) by apply lookup_insert_eq.
  destruct (update_boundaries_spec b1 _ Hb1)
    as (b' & -> & (Est & Elv & Epv & Estate & Ecx & Ecy) & Hw).
  exists b'. split; [reflexivity|].
  unfold previous_cells, live_cells. rewrite Est, Elv, Epv, Estate, Ecx, Ecy.
  simpl.
  split; [reflexivity|]. split; [reflexivity|]. split; [reflexivity|].
  split.
  { intros Hin. apply elem_of_dom in Hin as [w Hw']. 
    destruct (Hold1 _ _ Hw') as [Hw1 _]. apply Hlv. apply elem_of_dom.
    exists w. exact Hw1. }
  split; [exact Hpv|]. split; [exact Hne2|].
  split; [rewrite lookup_insert_ne by exact Hne; exact Hpv2|].
  split; [apply lookup_insert_eq|].
  split; [|exact Hw].
  intros r w Hr. destruct (Hold1 _ _ Hr) as [Hr1 _].
  destruct (Hold2 _ _ Hr1) as [Hr2 Hrne].
  rewrite lookup_insert_ne; [exact Hr2|].
  intros E. apply Hrne. symmetry. exact E.
Qed.

(** One call, whatever the live set. *)
Lemma Generate_next_state_live (b : Board) (l : gset Cell) :
  live_cells b = Some l →
  ∃ b', Generate_next_state b = Some b'
    ∧ live_cells b' = Some (next_live l)
    ∧ widened b (next_live l) b'.
Proof.
  intros Hl. destruct (decide (size l = 0%nat)) as [Hs|Hs].
  - exists b. split; [eapply Generate_next_state_empty; eassumption|].
    apply size_empty_iff, leibniz_equiv in Hs. subst l.
    rewrite next_live_empty. split; [exact Hl|].
    unfold widened. auto using least_of_empty, greatest_of_empty.
  - destruct (Generate_next_state_spec b l Hl Hs) as (b' & Hb' & H).
    exists b'. split; [exact Hb'|]. tauto.
Qed.

Lemma steps_live (n : nat) (b : Board) (l : gset Cell) :
  live_cells b = Some l →
  ∃ b', steps n b = Some b' ∧ live_cells b' = Some (Nat.iter n next_live l).
Proof.
  revert b l. induction n as [|n IH]; intros b l Hl.
  - exists b. split; [reflexivity|exact Hl].
  - destruct (Generate_next_state_live b l Hl) as (b1 & Hb1 & Hl1 & _).
    destruct (IH b1 _ Hl1) as (b' & Hb' & Hl').
    exists b'. simpl steps. rewrite Hb1; simpl. split; [exact Hb'|].
    rewrite <- Nat.iter_succ_r in Hl'. exact Hl'.
Qed.

(** ** Concrete boards *)

Lemma Board_init_blinker : Board_init blinker = Some blinker_board.
Proof. vm_compute. reflexivity. Qed.

Lemma Board_init_glider : Board_init initial_cells = Some glider_board.
Proof. vm_compute. reflexivity. Qed.

Lemma Board_init_extinct : Board_init [] = Some extinct_board.
Proof. vm_compute. reflexivity. Qed.

Lemma Board_init_far : Board_init [(200, 0)] = Some far_board.
Proof. vm_compute. reflexivity. Qed.

Lemma next_live_blinker : next_live (list_to_set blinker) = list_to_set vertical.
Proof. vm_compute. reflexivity. Qed.

Lemma next_live_vertical : next_live (list_to_set vertical) = list_to_set blinker.
Proof. vm_compute. reflexivity. Qed.

Lemma glider_four_generations :
  Nat.iter 4 next_live (list_to_set initial_cells)
  = set_map (translate 1 (-1)) (list_to_set initial_cells : gset Cell).
Proof. vm_compute. reflexivity. Qed.

(** ** Construction *)

Lemma Board_init_spec (cells : list Cell) :
  ∃ b, Board_init cells = Some b
    ∧ state b = 0
    ∧ previous b ≠ live b
    ∧ live_cells b = Some (list_to_set cells)
    ∧ previous_cells b = Some ∅
    ∧ bounds_of_history (list_to_set cells) b.
Proof.
  unfold Board_init.
  pose proof (alloc_lookup_new (list_to_set cells) ∅) as Hl.
  destruct (alloc (list_to_set cells) ∅) as [l h0] eqn:E0. simpl in Hl.
  pose proof (alloc_lookup_new ∅ h0) as Hp.
  destruct (alloc_lookup_old ∅ h0 _ _ Hl) as [Hl1 Hne].
  destruct (alloc ∅ h0) as [p h1] eqn:E1. simpl in Hp, Hl1, Hne.
  fold (sentinel_board h1 l p).
  destruct (update_boundaries_spec (sentinel_board h1 l p) _ Hl1)
    as (b' & -> & (Est & Elv & Epv & Estate & Ecx & Ecy) & Hw).
  simpl. eexists; split; [reflexivity|].
  unfold live_cells, previous_cells, bounds_of_history; simpl.
  rewrite Est, Elv, Epv, Estate. simpl.
  split; [reflexivity|].
  split; [intros E; apply Hne; symmetry; exact E|].
  split; [exact Hl1|]. split; [exact Hp|]. exact Hw.
Qed.

(** ** The bounds along a run *)

Lemma least_of_union f s H L m m' :
  least_of f s H m → least_of f m L m' → least_of f s (H ∪ L) m'.
Proof.
  intros (Hle & Hall & Hex) (Hle' & Hall' & Hex').
  split; [lia|]. split.
  - intros c [Hc|Hc]%elem_of_union; [specialize (Hall c Hc); lia|auto].
  - destruct Hex' as [->|(c & Hc & ->)].
    + destruct Hex as [->|(c & Hc & ->)]; [left; reflexivity|].
      right. exists c. split; [apply elem_of_union; left; exact Hc|reflexivity].
    + right. exists c. split; [apply elem_of_union; right; exact Hc|reflexivity].
Qed.

Lemma greatest_of_union f s H L m m' :
  greatest_of f s H m → greatest_of f m L m' → greatest_of f s (H ∪ L) m'.
Proof.
  intros (Hle & Hall & Hex) (Hle' & Hall' & Hex').
  split; [lia|]. split.
  - intros c [Hc|Hc]%elem_of_union; [specialize (Hall c Hc); lia|auto].
  - destruct Hex' as [->|(c & Hc & ->)].
    + destruct Hex as [->|(c & Hc & ->)]; [left; reflexivity|].
      right. exists c. split; [apply elem_of_union; left; exact Hc|reflexivity].
    + right. exists c. split; [apply elem_of_union; right; exact Hc|reflexivity].
Qed.

Lemma bounds_of_history_widened (H L : gset Cell) (b b' : Board) :
  bounds_of_history H b → widened b L b' → bounds_of_history (H ∪ L) b'.
Proof.
  intros (H1 & H2 & H3 & H4) (W1 & W2 & W3 & W4).
  unfold bounds_of_history.
  split; [eapply least_of_union; eassumption|].
  split; [eapply greatest_of_union; eassumption|].
  split; [eapply least_of_union; eassumption|].
  eapply greatest_of_union; eassumption.
Qed.

Lemma widened_box_le (b b' : Board) (L : gset Cell) :
  widened b L b' → box_le (bounds b) (bounds b') ∧ box_contains (bounds b') L.
Proof.
  intros ((W1 & A1 & _) & (W2 & A2 & _) & (W3 & A3 & _) & (W4 & A4 & _)).
  split; [unfold box_le, bounds; lia|].
  intros c Hc. unfold in_box, bounds.
  specialize (A1 c Hc). specialize (A2 c Hc).
  specialize (A3 c Hc). specialize (A4 c Hc). simpl in *. lia.
Qed.

Lemma bounds_of_history_contains (H : gset Cell) (b : Board) :
  bounds_of_history H b → box_contains (bounds b) H.
Proof.
  intros ((_ & A1 & _) & (_ & A2 & _) & (_ & A3 & _) & (_ & A4 & _)) c Hc.
  unfold in_box, bounds.
  specialize (A1 c Hc). specialize (A2 c Hc).
  specialize (A3 c Hc). specialize (A4 c Hc). simpl in *. lia.
Qed.

Lemma bounds_of_history_smallest (H : gset Cell) (b : Board) :
  bounds_of_history H b → smallest_sentinel_box H (bounds b).
Proof.
  intros Hb. split; [apply bounds_of_history_contains; exact Hb|].
  destruct Hb as ((S1 & _ & E1) & (S2 & _ & E2) & (S3 & _ & E3) & (S4 & _ & E4)).
  split; [unfold within_sentinel, bounds; lia|].
  intros [[[mnx mxx] mny] mxy] Hc Hs. unfold box_le, bounds.
  unfold within_sentinel in Hs. unfold box_contains, in_box in Hc.
  repeat split.
  - destruct E1 as [->|(c & Hin & ->)]; [lia|]. specialize (Hc c Hin). simpl; lia.
  - destruct E2 as [->|(c & Hin & ->)]; [lia|]. specialize (Hc c Hin). simpl; lia.
  - destruct E3 as [->|(c & Hin & ->)]; [lia|]. specialize (Hc c Hin). simpl; lia.
  - destruct E4 as [->|(c & Hin & ->)]; [lia|]. specialize (Hc c Hin). simpl; lia.
Qed.

(** Along a run, the bounds are the initial values widened by every cell
    that was present in the live set. *)
Lemma steps_history (n : nat) :
  ∀ (b : Board) (l H0 : gset Cell),
    live_cells b = Some l → bounds_of_history (H0 ∪ l) b →
    ∃ b' l' H, steps n b = Some b' ∧ ever_live n b = Some H
      ∧ live_cells b' = Some l' ∧ l' ⊆ H
      ∧ bounds_of_history (H0 ∪ H) b'.
Proof.
  induction n as [|n IH]; intros b l H0 Hl Hb.
  - exists b, l, l. simpl. rewrite Hl. simpl. auto.
  - destruct (Generate_next_state_live b l Hl) as (b1 & Hb1 & Hl1 & Hw).
    pose proof (bounds_of_history_widened _ _ _ _ Hb Hw) as Hb1'.
    destruct (IH b1 _ (H0 ∪ l) Hl1 Hb1') as (b' & l' & H & Hs & He & Hl' & Hsub & Hh).
    exists b', l', (l ∪ H). simpl. rewrite Hl, Hb1. simpl. rewrite He. simpl.
    split; [exact Hs|]. split; [reflexivity|]. split; [exact Hl'|].
    split; [intros c Hc; apply elem_of_union; right; apply Hsub; exact Hc|].
    rewrite union_assoc_L. exact Hh.
Qed.

Lemma run_history (cells : list Cell) (n : nat) :
  ∃ b l H, (Board_init cells ≫= steps n) = Some b
    ∧ (Board_init cells ≫= ever_live n) = Some H
    ∧ live_cells b = Some l ∧ l ⊆ H
    ∧ bounds_of_history H b.
Proof.
  destruct (Board_init_spec cells) as (b0 & -> & _ & _ & Hl & _ & Hb).
  rewrite <- (union_empty_l_L (list_to_set cells)) in Hb.
  destruct (steps_history n b0 _ ∅ Hl Hb) as (b & l & H & Hs & He & Hl' & Hsub & Hh).
  exists b, l, H. simpl. rewrite union_empty_l_L in Hh. auto.
Qed.

(** ** Properties of the board *)

(** C1. For every board whose live set [l] is not empty, a call of
    [Generate_next_state] succeeds, leaves [l] as the snapshot behind
    [previous], and makes a cell [c] alive in the new generation if and only
    if the number [n] of its 8 neighbours at Chebyshev distance 1 that are in
    the snapshot is 3, or is 2 with [c] itself in the snapshot.  The rule is
    read on the snapshot, which is an object other than the live set being
    built. *)
Theorem step_applies_life_rule (b : Board) (l : gset Cell) :
  live_cells b = Some l → size l ≠ 0%nat →
  ∃ b' l', Generate_next_state b = Some b'
    ∧ previous_cells b' = Some l
    ∧ live_cells b' = Some l'
    ∧ previous b' ≠ live b'
    ∧ ∀ c, c ∈ l' ↔
        (live_neighbours c l = 3%nat ∨ (live_neighbours c l = 2%nat ∧ c ∈ l)).
Proof.
  intros Hl Hs.
  destruct (Generate_next_state_spec b l Hl Hs)
    as (b' & Hb' & _ & _ & _ & _ & _ & Hne & Hp & Hl' & _).
  exists b', (next_live l).
  split; [exact Hb'|]. split; [exact Hp|]. split; [exact Hl'|].
  split; [exact Hne|].
  intros c. apply elem_of_next_live.
Qed.

Lemma step_applies_life_rule_witness :
  ∃ b' l', Generate_next_state blinker_board = Some b'
    ∧ previous_cells b' = Some (list_to_set blinker)
    ∧ live_cells b' = Some l'
    ∧ previous b' ≠ live b'
    ∧ ∀ c, c ∈ l' ↔
        (live_neighbours c (list_to_set blinker) = 3%nat
         ∨ (live_neighbours c (list_to_set blinker) = 2%nat
            ∧ c ∈ (list_to_set blinker : gset Cell))).
Proof.
  apply (step_applies_life_rule blinker_board (list_to_set blinker)).
  - reflexivity.
  - vm_compute. lia.
Defined.

(** C2. The candidate set of a call is the union, over the cells of the live
    set, of the 3x3 neighbourhood of the cell (the cell and its 8
    neighbours).  The call evaluates the rule on exactly these cells: a cell
    is alive in the next generation if and only if it is a candidate and
    passes the rule.  The candidates suffice: every cell that passes the
    rule is a candidate, so every cell alive in the next generation is in
    the candidate set and no cell outside it would have been born. *)
Theorem candidate_set_covers_next (b : Board) (l : gset Cell) :
  live_cells b = Some l →
  expansion l = ⋃ (expand <$> elements l)
  ∧ (∀ d, d ∈ expansion l ↔ ∃ p, p ∈ l ∧ chebyshev p d ≤ 1)
  ∧ ∃ b' l', Generate_next_state b = Some b'
      ∧ live_cells b' = Some l'
      ∧ l' ⊆ expansion l
      ∧ (∀ c, c ∈ l' ↔ c ∈ expansion l ∧ life_rule c l)
      ∧ (∀ c, life_rule c l → c ∈ expansion l).
Proof.
  intros Hl.
  assert (Hchar : ∀ d, d ∈ expansion l ↔ ∃ p, p ∈ l ∧ chebyshev p d ≤ 1).
  { intros d. rewrite elem_of_expansion. split; intros (p & Hp & Hd);
      exists p; (split; [exact Hp|]); apply elem_of_expand; exact Hd. }
  assert (Hsuff : ∀ c, life_rule c l → c ∈ expansion l).
  { intros c Hr. apply next_live_subseteq, elem_of_next_live. exact Hr. }
  split; [|split; [exact Hchar|]].
  - apply set_eq. intros d. rewrite elem_of_expansion, elem_of_union_list.
    split.
    + intros (p & Hp & Hd). exists (expand p). split; [|exact Hd].
      apply list_elem_of_fmap_2. apply elem_of_elements. exact Hp.
    + intros (X & HX & Hd). apply list_elem_of_fmap in HX as (p & -> & Hp).
      exists p. split; [apply elem_of_elements; exact Hp|exact Hd].
  - destruct (Generate_next_state_live b l Hl) as (b' & Hb' & Hl' & _).
    exists b', (next_live l). split; [exact Hb'|]. split; [exact Hl'|].
    split; [apply next_live_subseteq|]. split; [|exact Hsuff].
    intros c. unfold next_live.
    rewrite elem_of_filter, survives_life_rule. tauto.
Qed.

Lemma candidate_set_covers_next_witness :
  expansion (list_to_set initial_cells)
  = ⋃ (expand <$> elements (list_to_set initial_cells : gset Cell))
  ∧ (∀ d, d ∈ expansion (list_to_set initial_cells)
          ↔ ∃ p, p ∈ (list_to_set initial_cells : gset Cell) ∧ chebyshev p d ≤ 1)
  ∧ ∃ b' l', Generate_next_state glider_board = Some b'
      ∧ live_cells b' = Some l'
      ∧ l' ⊆ expansion (list_to_set initial_cells)
      ∧ (∀ c, c ∈ l' ↔ c ∈ expansion (list_to_set initial_cells)
                        ∧ life_rule c (list_to_set initial_cells))
      ∧ (∀ c, life_rule c (list_to_set initial_cells)
              → c ∈ expansion (list_to_set initial_cells)).
Proof.
  apply (candidate_set_covers_next glider_board (list_to_set initial_cells)).
  reflexivity.
Defined.

(** C3. On a board whose live set is empty, any number of calls of
    [Generate_next_state] returns the board as it was: live set, snapshot,
    generation counter and bounds are all unchanged. *)
Theorem extinction_is_absorbing (b : Board) (n : nat) :
  live_cells b = Some ∅ → steps n b = Some b.
Proof.
  intros Hl. induction n as [|n IH]; [reflexivity|].
  simpl. rewrite (Generate_next_state_empty b ∅ Hl); [|reflexivity].
  simpl. exact IH.
Qed.

Lemma extinction_is_absorbing_witness : steps 7 extinct_board = Some extinct_board.
Proof. apply (extinction_is_absorbing extinct_board 7). reflexivity. Defined.

(** C4. After construction from any seed and any number of calls, every
    cell of the live set lies within the bounds, and one more call does not
    raise [min_x] or [min_y] and does not lower [max_x] or [max_y]. *)
Theorem bounds_monotone_contain_live (cells : list Cell) (n : nat) :
  ∃ b l b', (Board_init cells ≫= steps n) = Some b
    ∧ live_cells b = Some l
    ∧ (∀ x y, (x, y) ∈ l →
         (min_x b ≤ x ∧ x ≤ max_x b) ∧ (min_y b ≤ y ∧ y ≤ max_y b))
    ∧ Generate_next_state b = Some b'
    ∧ (min_x b' ≤ min_x b ∧ max_x b ≤ max_x b')
    ∧ (min_y b' ≤ min_y b ∧ max_y b ≤ max_y b').
Proof.
  destruct (run_history cells n) as (b & l & H & Hb & _ & Hl & Hsub & Hh).
  destruct (Generate_next_state_live b l Hl) as (b' & Hb' & _ & Hw).
  exists b, l, b'. split; [exact Hb|]. split; [exact Hl|].
  split.
  - intros x y Hc. apply (bounds_of_history_contains _ _ Hh (x, y)).
    apply Hsub. exact Hc.
  - split; [exact Hb'|]. apply widened_box_le in Hw as [Hw _].
    unfold box_le, bounds in Hw. tauto.
Qed.

(** C5, as the code has it.  After construction from any seed and any number
    of calls of [Generate_next_state], with no call of [Draw] (which
    enlarges the bounds on its own account), the bounds are the smallest box
    with [min_x <= 100], [max_x >= -100], [min_y <= 100] and
    [max_y >= -100] that contains every cell that was present in the live
    set in a generation computed so far. *)
Theorem bounds_smallest_within_sentinel (cells : list Cell) (n : nat) :
  ∃ b H, (Board_init cells ≫= steps n) = Some b
    ∧ (Board_init cells ≫= ever_live n) = Some H
    ∧ smallest_sentinel_box H (bounds b).
Proof.
  destruct (run_history cells n) as (b & l & H & Hb & He & _ & _ & Hh).
  exists b, H. split; [exact Hb|]. split; [exact He|].
  apply bounds_of_history_smallest. exact Hh.
Qed.

(** C5 as stated fails: the board built from the single cell [(200, 0)] has
    [min_x = 100], and the box [(100, 200, 0, 0)] is not the smallest box
    that contains the cell. *)
Lemma far_seed_bounds_not_smallest :
  Board_init [(200, 0)] = Some far_board
  ∧ ever_live 0 far_board = Some {[ (200, 0) ]}
  ∧ bounds far_board = (100, 200, 0, 0)
  ∧ ¬ smallest_box {[ (200, 0) ]} (bounds far_board).
Proof.
  split; [apply Board_init_far|].
  split; [vm_compute; reflexivity|].
  split; [reflexivity|].
  intros [_ Hmin]. specialize (Hmin (200, 200, 0, 0)).
  assert (Hc : box_contains (200, 200, 0, 0) {[ (200, 0) ]}).
  { intros c ->%elem_of_singleton. unfold in_box; simpl. lia. }
  apply Hmin in Hc. unfold box_le, bounds, far_board, board_at in Hc.
  simpl in Hc. lia.
Qed.

(** C6. The generation counter is 0 on construction.  For every board whose
    live set [l] is not empty, a call of [Generate_next_state] adds exactly 1
    to the counter, and on return the object behind [previous] holds exactly
    [l]; that object is not the new live set and not the live set of before
    the call. *)
Theorem step_counts_and_snapshots (cells : list Cell) (b : Board) (l : gset Cell) :
  live_cells b = Some l → size l ≠ 0%nat →
  (∃ b0, Board_init cells = Some b0 ∧ state b0 = 0)
  ∧ ∃ b', Generate_next_state b = Some b'
      ∧ state b' = state b + 1
      ∧ previous_cells b' = Some l
      ∧ previous b' ≠ live b'
      ∧ previous b' ≠ live b.
Proof.
  intros Hl Hs. split.
  - destruct (Board_init_spec cells) as (b0 & Hb0 & Hst & _).
    exists b0. split; [exact Hb0|exact Hst].
  - destruct (Generate_next_state_spec b l Hl Hs)
      as (b' & Hb' & Hst & _ & _ & _ & Hfresh & Hne & Hp & _).
    exists b'. split; [exact Hb'|]. split; [exact Hst|]. split; [exact Hp|].
    split; [exact Hne|].
    intros E. apply Hfresh. rewrite E. apply elem_of_dom. exists l. exact Hl.
Qed.

Lemma step_counts_and_snapshots_witness :
  (∃ b0, Board_init initial_cells = Some b0 ∧ state b0 = 0)
  ∧ ∃ b', Generate_next_state glider_board = Some b'
      ∧ state b' = state glider_board + 1
      ∧ previous_cells b' = Some (list_to_set initial_cells)
      ∧ previous b' ≠ live b'
      ∧ previous b' ≠ live glider_board.
Proof.
  apply (step_counts_and_snapshots initial_cells glider_board
           (list_to_set initial_cells)).
  - reflexivity.
  - vm_compute. lia.
Defined.

(** C7. On a board whose live set is the horizontal blinker
    [{(-1,0), (0,0), (1,0)}], one call makes the live set the vertical
    triomino [{(0,-1), (0,0), (0,1)}] and a second call makes it the
    horizontal blinker again. *)
Theorem blinker_period_two (b : Board) :
  live_cells b = Some {[ (-1, 0); (0, 0); (1, 0) ]} →
  ∃ b1 b2, Generate_next_state b = Some b1
    ∧ live_cells b1 = Some {[ (0, -1); (0, 0); (0, 1) ]}
    ∧ Generate_next_state b1 = Some b2
    ∧ live_cells b2 = Some {[ (-1, 0); (0, 0); (1, 0) ]}.
Proof.
  intros Hl.
  assert (Eh : ({[ (-1, 0); (0, 0); (1, 0) ]} : gset Cell) = list_to_set blinker)
    by (vm_compute; reflexivity).
  assert (Ev : ({[ (0, -1); (0, 0); (0, 1) ]} : gset Cell) = list_to_set vertical)
    by (vm_compute; reflexivity).
  rewrite Eh in *. rewrite Ev.
  destruct (Generate_next_state_live b _ Hl) as (b1 & Hb1 & Hl1 & _).
  rewrite next_live_blinker in Hl1.
  destruct (Generate_next_state_live b1 _ Hl1) as (b2 & Hb2 & Hl2 & _).
  rewrite next_live_vertical in Hl2.
  exists b1, b2. auto.
Qed.

Lemma blinker_period_two_witness :
  ∃ b1 b2, Generate_next_state blinker_board = Some b1
    ∧ live_cells b1 = Some {[ (0, -1); (0, 0); (0, 1) ]}
    ∧ Generate_next_state b1 = Some b2
    ∧ live_cells b2 = Some {[ (-1, 0); (0, 0); (1, 0) ]}.
Proof. apply (blinker_period_two blinker_board). vm_compute. reflexivity. Defined.

(** C8. On a board whose live set is the glider of [main],
    [{(0,1), (1,0), (-1,-1), (0,-1), (1,-1)}], 4 calls make the live set the
    same 5 cells, each translated by [(+1, -1)]. *)
Theorem glider_translates (b : Board) :
  live_cells b = Some {[ (0, 1); (1, 0); (-1, -1); (0, -1); (1, -1) ]} →
  ∃ b4, steps 4 b = Some b4
    ∧ live_cells b4
      = Some (set_map (translate 1 (-1))
                ({[ (0, 1); (1, 0); (-1, -1); (0, -1); (1, -1) ]} : gset Cell))
    ∧ live_cells b4 = Some {[ (1, 0); (2, -1); (0, -2); (1, -2); (2, -2) ]}.
Proof.
  intros Hl.
  assert (Eg : ({[ (0, 1); (1, 0); (-1, -1); (0, -1); (1, -1) ]} : gset Cell)
               = list_to_set initial_cells) by (vm_compute; reflexivity).
  rewrite Eg in *.
  destruct (steps_live 4 b _ Hl) as (b4 & Hb4 & Hl4).
  rewrite glider_four_generations in Hl4.
  exists b4. split; [exact Hb4|]. split; [exact Hl4|].
  rewrite Hl4. vm_compute. reflexivity.
Qed.

Lemma glider_translates_witness :
  ∃ b4, steps 4 glider_board = Some b4
    ∧ live_cells b4
      = Some (set_map (translate 1 (-1))
                ({[ (0, 1); (1, 0); (-1, -1); (0, -1); (1, -1) ]} : gset Cell))
    ∧ live_cells b4 = Some {[ (1, 0); (2, -1); (0, -2); (1, -2); (2, -2) ]}.
Proof. apply (glider_translates glider_board). vm_compute. reflexivity. Defined.

(** C9. For every cell [c] and every set [st], [transition c st] returns a
    boolean and does not raise; [expand c] is exactly the set of the 9 cells
    at Chebyshev distance at most 1 from [c], it contains [c], and so the
    removal of [c] from it succeeds. *)
Theorem transition_total_expand_nine (c : Cell) (st : gset Cell) :
  (∃ r : bool, transition c st = Some r)
  ∧ (∀ d, d ∈ expand c ↔ chebyshev c d ≤ 1)
  ∧ size (expand c) = 9%nat
  ∧ c ∈ expand c
  ∧ (∃ ns, set_remove c (expand c) = Some ns ∧ size ns = 8%nat)
  ∧ transition c st = Some (survives c st).
Proof.
  split; [eexists; apply transition_survives|].
  split; [intros d; apply elem_of_expand|].
  split; [apply size_expand|].
  split; [apply expand_self|].
  split; [|apply transition_survives].
  exists (expand c ∖ {[c]}). split; [apply set_remove_expand|].
  pose proof (size_expand c) as H9.
  assert (Hu : expand c = {[c]} ∪ (expand c ∖ {[c]})).
  { apply set_eq. intros d. rewrite elem_of_union, elem_of_difference,
      elem_of_singleton.
    split; [intros Hd; destruct (decide (d = c)); tauto|].
    intros [->|[Hd _]]; [apply expand_self|exact Hd]. }
  rewrite Hu in H9. rewrite size_union in H9
    by (intros d; rewrite elem_of_singleton, elem_of_difference,
          elem_of_singleton; tauto).
  rewrite size_singleton in H9. lia.
Qed.


(** C10. A board built from an empty sequence has the bounds
    [min_x = 100], [max_x = -100], [min_y = 100], [max_y = -100], an inverted
    box, and keeps them under any number of calls; a board built from any
    seed has [min_x <= 100] and [max_x >= -100] after any number of calls. *)
Theorem sentinel_bounds (cells : list Cell) (n : nat) :
  (∃ b, (Board_init [] ≫= steps n) = Some b
     ∧ bounds b = (100, -100, 100, -100)
     ∧ max_x b < min_x b ∧ max_y b < min_y b)
  ∧ (∃ b, (Board_init cells ≫= steps n) = Some b
       ∧ min_x b ≤ 100 ∧ -100 ≤ max_x b).
Proof.
  split.
  - exists extinct_board. rewrite Board_init_extinct. simpl.
    split; [|split; [reflexivity|split; reflexivity]].
    clear. induction n as [|n IH]; [reflexivity|].
    simpl. rewrite (Generate_next_state_empty extinct_board ∅ eq_refl eq_refl).
    exact IH.
  - destruct (run_history cells n) as (b & l & H & Hb & _ & _ & _ & Hh).
    exists b. split; [exact Hb|].
    destruct Hh as ((S1 & _) & (S2 & _) & _). lia.
Qed.

(** ** Further properties of the engine *)

Lemma live_neighbours_le (c : Cell) (st : gset Cell) :
  (live_neighbours c st ≤ size st)%nat.
Proof.
  unfold live_neighbours. apply subseteq_size.
  intros d Hd. apply elem_of_filter in Hd. tauto.
Qed.

Lemma live_neighbours_lt (c : Cell) (st : gset Cell) :
  c ∈ st → (live_neighbours c st < size st)%nat.
Proof.
  intros Hc. unfold live_neighbours.
  assert (Hsub : filter (λ d, chebyshev c d = 1) st ⊆ st ∖ {[c]}).
  { intros d Hd. apply elem_of_filter in Hd as [Hd Hin].
    apply elem_of_difference. split; [exact Hin|].
    intros ->%elem_of_singleton. destruct c. unfold chebyshev in Hd.
    simpl in Hd. lia. }
  apply subseteq_size in Hsub.
  rewrite size_difference in Hsub
    by (intros d ->%elem_of_singleton; exact Hc).
  rewrite size_singleton in Hsub.
  assert (0 < size st)%nat; [|lia].
  destruct (size st) eqn:E; [|lia].
  apply size_empty_iff in E. apply E in Hc. apply elem_of_empty in Hc. tauto.
Qed.

Lemma next_live_few (st : gset Cell) : (size st < 3)%nat → next_live st = ∅.
Proof.
  intros Hs. apply set_eq. intros c. rewrite elem_of_next_live.
  split; [|intros Hc; apply elem_of_empty in Hc; tauto].
  pose proof (live_neighbours_le c st).
  intros [H3|[H2 Hc]]; [lia|].
  apply live_neighbours_lt in Hc. lia.
Qed.

Lemma iter_next_live_empty (n : nat) : Nat.iter n next_live ∅ = ∅.
Proof.
  induction n as [|n IH]; [reflexivity|]. simpl. rewrite IH. apply next_live_empty.
Qed.

(** X1. A board with fewer than 3 live cells has none after one call of
    [Generate_next_state], and none after any larger number of calls. *)
Theorem few_cells_die_out (b : Board) (l : gset Cell) (n : nat) :
  live_cells b = Some l → (size l < 3)%nat →
  ∃ b', steps (S n) b = Some b' ∧ live_cells b' = Some ∅.
Proof.
  intros Hl Hs. destruct (steps_live (S n) b l Hl) as (b' & Hb' & Hl').
  exists b'. split; [exact Hb'|]. rewrite Hl'. f_equal.
  rewrite Nat.iter_succ_r, (next_live_few l Hs). apply iter_next_live_empty.
Qed.

Lemma few_cells_die_out_witness :
  ∃ b', steps 3 (board_at [(0, 0); (1, 0)] (0, 1, 0, 0)) = Some b'
    ∧ live_cells b' = Some ∅.
Proof.
  apply (few_cells_die_out (board_at [(0, 0); (1, 0)] (0, 1, 0, 0))
           (list_to_set [(0, 0); (1, 0)]) 2).
  - reflexivity.
  - vm_compute. lia.
Defined.

(** *** Translation *)

Lemma translate_back (dx dy : Z) (c : Cell) :
  translate dx dy (translate (- dx) (- dy) c) = c.
Proof. destruct c. unfold translate; simpl. f_equal; lia. Qed.

Lemma translate_inj (dx dy : Z) (c d : Cell) :
  translate dx dy c = translate dx dy d → c = d.
Proof.
  destruct c, d. unfold translate; simpl. intros [= H1 H2]. f_equal; lia.
Qed.

Lemma chebyshev_translate (dx dy : Z) (c d : Cell) :
  chebyshev (translate dx dy c) (translate dx dy d) = chebyshev c d.
Proof.
  destruct c, d. unfold chebyshev, translate; simpl.
  f_equal; f_equal; lia.
Qed.

Lemma size_translate (dx dy : Z) (X : gset Cell) :
  size (set_map (translate dx dy) X : gset Cell) = size X.
Proof.
  induction X as [|c X Hc IH] using set_ind_L.
  - rewrite set_map_empty. reflexivity.
  - rewrite set_map_union_L, set_map_singleton_L.
    rewrite !size_union, !size_singleton, IH; [reflexivity| |].
    + intros d ->%elem_of_singleton Hd. exact (Hc Hd).
    + intros d ->%elem_of_singleton Hd.
      apply elem_of_map in Hd as (e & He & Hin).
      apply translate_inj in He. subst e. exact (Hc Hin).
Qed.

Lemma elem_of_translate (dx dy : Z) (X : gset Cell) (c : Cell) :
  translate dx dy c ∈ (set_map (translate dx dy) X : gset Cell) ↔ c ∈ X.
Proof.
  rewrite elem_of_map. split.
  - intros (e & He & Hin). apply translate_inj in He. subst e. exact Hin.
  - intros Hin. exists c. split; [reflexivity|exact Hin].
Qed.

Lemma live_neighbours_translate (dx dy : Z) (c : Cell) (st : gset Cell) :
  live_neighbours (translate dx dy c) (set_map (translate dx dy) st)
  = live_neighbours c st.
Proof.
  unfold live_neighbours. rewrite <- (size_translate dx dy (filter _ st)).
  f_equal. apply set_eq. intros d.
  rewrite <- (translate_back dx dy d).
  rewrite elem_of_filter, !elem_of_translate, elem_of_filter,
    chebyshev_translate. reflexivity.
Qed.

Lemma next_live_translate (dx dy : Z) (st : gset Cell) :
  next_live (set_map (translate dx dy) st)
  = set_map (translate dx dy) (next_live st).
Proof.
  apply set_eq. intros d. rewrite <- (translate_back dx dy d).
  rewrite elem_of_translate, !elem_of_next_live. unfold life_rule.
  rewrite live_neighbours_translate, elem_of_translate. reflexivity.
Qed.

(** X2. The rule does not depend on where the pattern lies: two boards
    whose live sets are translates of each other by [(dx, dy)] have, after
    one call each, live sets that are translates of each other by
    [(dx, dy)]. *)
Theorem step_commutes_with_translation
    (dx dy : Z) (b1 b2 : Board) (l : gset Cell) :
  live_cells b1 = Some l →
  live_cells b2 = Some (set_map (translate dx dy) l) →
  ∃ b1' b2' l', Generate_next_state b1 = Some b1'
    ∧ Generate_next_state b2 = Some b2'
    ∧ live_cells b1' = Some l'
    ∧ live_cells b2' = Some (set_map (translate dx dy) l').
Proof.
  intros H1 H2.
  destruct (Generate_next_state_live b1 _ H1) as (b1' & Hb1 & Hl1 & _).
  destruct (Generate_next_state_live b2 _ H2) as (b2' & Hb2 & Hl2 & _).
  exists b1', b2', (next_live l).
  rewrite next_live_translate in Hl2. auto.
Qed.

Lemma step_commutes_with_translation_witness :
  ∃ b1' b2' l', Generate_next_state glider_board = Some b1'
    ∧ Generate_next_state shifted_glider_board = Some b2'
    ∧ live_cells b1' = Some l'
    ∧ live_cells b2' = Some (set_map (translate 1 (-1)) l').
Proof.
  apply (step_commutes_with_translation 1 (-1) glider_board
           shifted_glider_board (list_to_set initial_cells)).
  - reflexivity.
  - vm_compute. reflexivity.
Defined.

(** *** The generation counter *)

Lemma steps_state (n : nat) :
  ∀ (b : Board) (l : gset Cell),
    live_cells b = Some l →
    ∃ b', steps n b = Some b'
      ∧ live_cells b' = Some (Nat.iter n next_live l)
      ∧ (state b ≤ state b' ∧ state b' ≤ state b + Z.of_nat n)
      ∧ (Nat.iter n next_live l ≠ ∅ → state b' = state b + Z.of_nat n).
Proof.
  induction n as [|n IH]; intros b l Hl.
  - exists b. simpl. split; [reflexivity|]. split; [exact Hl|].
    split; lia.
  - rewrite Nat.iter_succ_r. simpl steps.
    destruct (decide (size l = 0%nat)) as [Hs|Hs].
    + rewrite (Generate_next_state_empty b l Hl Hs). simpl.
      apply size_empty_iff, leibniz_equiv in Hs. subst l.
      rewrite next_live_empty, iter_next_live_empty.
      destruct (IH b ∅ Hl) as (b' & Hb' & Hl' & Hst & _).
      rewrite iter_next_live_empty in Hl'.
      exists b'. split; [exact Hb'|]. split; [exact Hl'|].
      split; [lia|]. intros Hne. destruct Hne. reflexivity.
    + destruct (Generate_next_state_spec b l Hl Hs)
        as (b1 & -> & Hst1 & _ & _ & _ & _ & _ & _ & Hl1 & _).
      simpl. destruct (IH b1 _ Hl1) as (b' & Hb' & Hl' & Hst & Hfull).
      exists b'. split; [exact Hb'|]. split; [exact Hl'|].
      split; [lia|]. intros Hne. rewrite (Hfull Hne). lia.
Qed.

(** X3. After construction from any seed and [n] calls of
    [Generate_next_state], the generation counter is between 0 and [n], and
    it is exactly [n] when the live set is still not empty: the counter
    counts the calls made before extinction. *)
Theorem state_counts_generations (cells : list Cell) (n : nat) :
  ∃ b l, (Board_init cells ≫= steps n) = Some b
    ∧ live_cells b = Some l
    ∧ (0 ≤ state b ∧ state b ≤ Z.of_nat n)
    ∧ (l ≠ ∅ → state b = Z.of_nat n).
Proof.
  destruct (Board_init_spec cells) as (b0 & -> & Hst & _ & Hl & _).
  destruct (steps_state n b0 _ Hl) as (b & Hb & Hl' & Hrange & Hfull).
  exists b, (Nat.iter n next_live (list_to_set cells)). simpl.
  split; [exact Hb|]. split; [exact Hl'|]. split; [lia|].
  intros Hne. rewrite (Hfull Hne). lia.
Qed.

(** *** The bounds *)

(** X4. On a board whose bounds contain its live cells, one call of
    [Generate_next_state] moves each of the four bounds outwards by at most
    1. *)
Theorem bounds_grow_by_at_most_one (b : Board) (l : gset Cell) :
  live_cells b = Some l → box_contains (bounds b) l →
  ∃ b', Generate_next_state b = Some b'
    ∧ (min_x b - 1 ≤ min_x b' ∧ min_x b' ≤ min_x b)
    ∧ (max_x b ≤ max_x b' ∧ max_x b' ≤ max_x b + 1)
    ∧ (min_y b - 1 ≤ min_y b' ∧ min_y b' ≤ min_y b)
    ∧ (max_y b ≤ max_y b' ∧ max_y b' ≤ max_y b + 1).
Proof.
  intros Hl Hbox.
  destruct (Generate_next_state_live b l Hl) as (b' & Hb' & _ & Hw).
  exists b'. split; [exact Hb'|].
  assert (Hnear : ∀ c, c ∈ next_live l →
            (min_x b - 1 ≤ c.1 ∧ c.1 ≤ max_x b + 1)
            ∧ (min_y b - 1 ≤ c.2 ∧ c.2 ≤ max_y b + 1)).
  { intros c Hc. apply next_live_subseteq, elem_of_expansion in Hc
      as (p & Hp & Hd).
    apply elem_of_expand in Hd. specialize (Hbox p Hp).
    unfold in_box, bounds in Hbox. destruct c, p.
    unfold chebyshev in Hd. simpl in *. lia. }
  destruct Hw as ((L1 & _ & E1) & (L2 & _ & E2) & (L3 & _ & E3) & (L4 & _ & E4)).
  repeat split; try assumption.
  - destruct E1 as [->|(c & Hc & ->)]; [lia|]. apply (Hnear c Hc).
  - destruct E2 as [->|(c & Hc & ->)]; [lia|]. apply (Hnear c Hc).
  - destruct E3 as [->|(c & Hc & ->)]; [lia|]. apply (Hnear c Hc).
  - destruct E4 as [->|(c & Hc & ->)]; [lia|]. apply (Hnear c Hc).
Qed.

Lemma box_contains_blinker :
  box_contains (bounds blinker_board) (list_to_set blinker).
Proof.
  intros c Hc. apply elem_of_list_to_set in Hc. unfold blinker in Hc.
  repeat (apply elem_of_cons in Hc as [->|Hc];
          [unfold in_box, bounds; simpl; lia|]).
  apply elem_of_nil in Hc. destruct Hc.
Qed.

Lemma bounds_grow_by_at_most_one_witness :
  ∃ b', Generate_next_state blinker_board = Some b'
    ∧ (min_x blinker_board - 1 ≤ min_x b' ∧ min_x b' ≤ min_x blinker_board)
    ∧ (max_x blinker_board ≤ max_x b' ∧ max_x b' ≤ max_x blinker_board + 1)
    ∧ (min_y blinker_board - 1 ≤ min_y b' ∧ min_y b' ≤ min_y blinker_board)
    ∧ (max_y blinker_board ≤ max_y b' ∧ max_y b' ≤ max_y blinker_board + 1).
Proof.
  apply (bounds_grow_by_at_most_one blinker_board (list_to_set blinker)).
  - reflexivity.
  - apply box_contains_blinker.
Defined.

(** X5. [update_boundaries] changes nothing on a board whose bounds already
    contain its live cells. *)
Theorem update_boundaries_when_contained (b : Board) (l : gset Cell) :
  live_cells b = Some l → box_contains (bounds b) l →
  update_boundaries b = Some b.
Proof.
  intros Hl Hbox. destruct (decide (size l = 0%nat)) as [Hs|Hs].
  { eapply update_boundaries_empty; eassumption. }
  unfold live_cells in Hl. unfold update_boundaries. rewrite Hl; simpl.
  rewrite bool_decide_eq_false_2 by exact Hs.
  destruct (py_min_elements (λ a, a.1) l Hs) as (mnx & -> & _ & (c1 & H1 & ->)).
  destruct (py_max_elements (λ a, a.1) l Hs) as (mxx & -> & _ & (c2 & H2 & ->)).
  destruct (py_min_elements (λ a, a.2) l Hs) as (mny & -> & _ & (c3 & H3 & ->)).
  destruct (py_max_elements (λ a, a.2) l Hs) as (mxy & -> & _ & (c4 & H4 & ->)).
  simpl.
  apply Hbox in H1, H2, H3, H4. unfold in_box, bounds in *.
  destruct b; simpl in *. f_equal. f_equal; lia.
Qed.

Lemma update_boundaries_when_contained_witness :
  update_boundaries blinker_board = Some blinker_board.
Proof.
  apply (update_boundaries_when_contained blinker_board (list_to_set blinker)).
  - reflexivity.
  - apply box_contains_blinker.
Defined.

(** *** The store *)

(** X6. [Generate_next_state] never writes to a set object that existed
    before the call: whatever an earlier reference pointed to, the old live
    set included, it still points to after the call. *)
Theorem step_keeps_existing_objects
    (b : Board) (l : gset Cell) (r : ref) (w : gset Cell) :
  live_cells b = Some l → store b !! r = Some w →
  ∃ b', Generate_next_state b = Some b'
    ∧ store b' !! r = Some w
    ∧ store b' !! live b = Some l.
Proof.
  intros Hl Hr. destruct (decide (size l = 0%nat)) as [Hs|Hs].
  - exists b. split; [eapply Generate_next_state_empty; eassumption|].
    split; [exact Hr|exact Hl].
  - destruct (Generate_next_state_spec b l Hl Hs)
      as (b' & Hb' & _ & _ & _ & _ & _ & _ & _ & _ & Hold & _).
    exists b'. split; [exact Hb'|]. split; apply Hold; assumption.
Qed.

Lemma step_keeps_existing_objects_witness :
  ∃ b', Generate_next_state glider_board = Some b'
    ∧ store b' !! 2%positive = Some ∅
    ∧ store b' !! live glider_board = Some (list_to_set initial_cells).
Proof.
  apply (step_keeps_existing_objects glider_board (list_to_set initial_cells)
           2%positive ∅); reflexivity.
Defined.

(** *** Growth *)

Lemma expansion_foldl_size (cs : list Cell) (acc : gset Cell) :
  (size (foldl (λ expanded_set cell, expanded_set ∪ expand cell) acc cs)
   ≤ size acc + 9 * length cs)%nat.
Proof.
  revert acc. induction cs as [|c cs IH]; intros acc; simpl; [lia|].
  etransitivity; [apply IH|].
  rewrite size_union_alt.
  assert (size (expand c ∖ acc) ≤ size (expand c))%nat
    by (apply subseteq_size; intros d Hd; apply elem_of_difference in Hd; tauto).
  rewrite size_expand in *. lia.
Qed.

(** X7. The candidate set contains every live cell and has at most 9 times
    as many cells as the live set, and so has the next generation: one call
    multiplies the number of live cells by at most 9. *)
Theorem step_growth_bounded (b : Board) (l : gset Cell) :
  live_cells b = Some l →
  l ⊆ expansion l
  ∧ (size (expansion l) ≤ 9 * size l)%nat
  ∧ ∃ b' l', Generate_next_state b = Some b' ∧ live_cells b' = Some l'
      ∧ (size l' ≤ 9 * size l)%nat.
Proof.
  intros Hl.
  assert (Hsz : (size (expansion l) ≤ 9 * size l)%nat).
  { unfold expansion. etransitivity; [apply expansion_foldl_size|].
    rewrite size_empty. unfold size, set_size; simpl. lia. }
  split; [|split; [exact Hsz|]].
  - intros c Hc. apply elem_of_expansion. exists c.
    split; [exact Hc|apply expand_self].
  - destruct (Generate_next_state_live b l Hl) as (b' & Hb' & Hl' & _).
    exists b', (next_live l). split; [exact Hb'|]. split; [exact Hl'|].
    etransitivity; [apply subseteq_size, next_live_subseteq|exact Hsz].
Qed.

Lemma step_growth_bounded_witness :
  (list_to_set initial_cells : gset Cell) ⊆ expansion (list_to_set initial_cells)
  ∧ (size (expansion (list_to_set initial_cells))
     ≤ 9 * size (list_to_set initial_cells : gset Cell))%nat
  ∧ ∃ b' l', Generate_next_state glider_board = Some b'
      ∧ live_cells b' = Some l'
      ∧ (size l' ≤ 9 * size (list_to_set initial_cells : gset Cell))%nat.
Proof.
  apply (step_growth_bounded glider_board (list_to_set initial_cells)).
  reflexivity.
Defined.

(** ** [Board.Draw] *)

Lemma py_floordiv_2 (a : Z) : py_floordiv a 2 = Some (a `div` 2).
Proof. reflexivity. Qed.

Lemma py_floordiv_nonzero (a b : Z) : b ≠ 0 → py_floordiv a b = Some (a `div` b).
Proof. intros Hb. unfold py_floordiv. destruct (decide (b = 0)); [tauto|reflexivity]. Qed.

Lemma py_floordiv_zero (a : Z) : py_floordiv a 0 = None.
Proof. reflexivity. Qed.

Lemma mapM_draw_cell (sw sh cx cy pixels : Z) (cs : list Cell) :
  mapM (draw_cell sw sh cx cy pixels) cs
  = Some ((λ c, mkFill (0, 0, 0) (Some (cell_rect sw sh cx cy pixels c))) <$> cs).
Proof.
  induction cs as [|[x y] cs IH]; [reflexivity|].
  simpl. rewrite IH. reflexivity.
Qed.

(** The part of [Draw] that comes before the divisions by the width and the
    height: the enlargement of the bounds. *)
Lemma Draw_unfold (sw sh : Z) (b : Board) :
  Draw sw sh b =
  (qx ← py_floordiv sw (max_x b - min_x b + 1 + 1);
   qy ← py_floordiv sh (max_y b - min_y b + 1 + 1);
   l ← store (drawn b) !! live (drawn b);
   fills ← mapM (draw_cell sw sh ((min_x b + max_x b) `div` 2)
                   ((min_y b + max_y b) `div` 2) (Z.min qx qy)) (elements l);
   Some (drawn b, fills)).
Proof.
  unfold Draw, drawn. rewrite !py_floordiv_2. simpl.
  unfold min_dimension.
  destruct (bool_decide (max_x b - min_x b + 1 < 50)
            || bool_decide (max_y b - min_y b + 1 < 50)); reflexivity.
Qed.

Lemma drawn_same_but_bounds (b : Board) : same_but_bounds b (drawn b).
Proof.
  unfold drawn.
  destruct (_ || _); repeat split.
Qed.

Lemma live_cells_drawn (b : Board) : live_cells (drawn b) = live_cells b.
Proof.
  destruct (drawn_same_but_bounds b) as (Es & El & _).
  unfold live_cells. rewrite Es, El. reflexivity.
Qed.

Lemma Draw_spec (sw sh : Z) (b : Board) (l : gset Cell) :
  live_cells b = Some l →
  max_x b - min_x b + 2 ≠ 0 → max_y b - min_y b + 2 ≠ 0 →
  Draw sw sh b = Some (drawn b, draw_fills sw sh b l).
Proof.
  intros Hl Hx Hy. rewrite Draw_unfold.
  rewrite !py_floordiv_nonzero by lia. simpl.
  rewrite <- live_cells_drawn in Hl. unfold live_cells in Hl. rewrite Hl. simpl.
  rewrite mapM_draw_cell. reflexivity.
Qed.

Lemma Draw_raises (sw sh : Z) (b : Board) :
  max_x b - min_x b + 2 = 0 ∨ max_y b - min_y b + 2 = 0 →
  Draw sw sh b = None.
Proof.
  intros H. rewrite Draw_unfold.
  destruct (decide (max_x b - min_x b + 1 + 1 = 0)) as [E|E].
  - rewrite E. reflexivity.
  - rewrite (py_floordiv_nonzero _ _ E). simpl.
    replace (max_y b - min_y b + 1 + 1) with 0 by lia. reflexivity.
Qed.

Lemma drawn_box_le (b : Board) : box_le (bounds b) (bounds (drawn b)).
Proof.
  unfold drawn. destruct (_ || _); unfold box_le, bounds; simpl; lia.
Qed.

Lemma drawn_min_size (b : Board) :
  50 ≤ max_x (drawn b) - min_x (drawn b) + 1
  ∧ 50 ≤ max_y (drawn b) - min_y (drawn b) + 1.
Proof.
  unfold drawn.
  destruct (bool_decide (max_x b - min_x b + 1 < 50)) eqn:Ex;
    destruct (bool_decide (max_y b - min_y b + 1 < 50)) eqn:Ey; simpl;
    try apply bool_decide_eq_false in Ex; try apply bool_decide_eq_false in Ey;
    lia.
Qed.

Lemma drawn_idemp (b : Board) : drawn (drawn b) = drawn b.
Proof.
  destruct (drawn_min_size b) as [Hx Hy].
  unfold drawn at 1.
  rewrite (bool_decide_eq_false_2 _ (proj2 (Z.nlt_ge _ _) Hx)).
  rewrite (bool_decide_eq_false_2 _ (proj2 (Z.nlt_ge _ _) Hy)).
  reflexivity.
Qed.

Lemma drawn_sane (b : Board) : bounds_sane (drawn b).
Proof.
  destruct (drawn_min_size b). unfold bounds_sane. lia.
Qed.

Lemma length_draw_fills (sw sh : Z) (b : Board) (l : gset Cell) :
  length (draw_fills sw sh b l) = size l.
Proof. unfold draw_fills. rewrite length_fmap. reflexivity. Qed.

(** X8. [Draw] raises (a division by zero) exactly on the boards whose
    bounds are inverted by 2 along one axis, [max_x = min_x - 2] or
    [max_y = min_y - 2], whatever the size of the screen. *)
Theorem Draw_raises_iff (sw sh : Z) (b : Board) (l : gset Cell) :
  live_cells b = Some l →
  (Draw sw sh b = None ↔ (max_x b = min_x b - 2 ∨ max_y b = min_y b - 2)).
Proof.
  intros Hl. split.
  - intros Hn.
    destruct (decide (max_x b - min_x b + 2 = 0)) as [|Hx]; [lia|].
    destruct (decide (max_y b - min_y b + 2 = 0)) as [|Hy]; [lia|].
    rewrite (Draw_spec sw sh b l Hl Hx Hy) in Hn. discriminate.
  - intros H. apply Draw_raises. lia.
Qed.

Lemma Draw_raises_iff_witness :
  Draw 800 800 undrawable_board = None
  ↔ (max_x undrawable_board = min_x undrawable_board - 2
     ∨ max_y undrawable_board = min_y undrawable_board - 2).
Proof.
  apply (Draw_raises_iff 800 800 undrawable_board (list_to_set blinker)).
  reflexivity.
Defined.

(** X9. Where [Draw] does not raise, it changes nothing of the board but
    the bounds, which it only enlarges, to at least 50 cells in width and in
    height, and it fills one rectangle for each live cell. *)
Theorem Draw_enlarges_bounds (sw sh : Z) (b : Board) (l : gset Cell) :
  live_cells b = Some l →
  max_x b ≠ min_x b - 2 → max_y b ≠ min_y b - 2 →
  ∃ b' fills, Draw sw sh b = Some (b', fills)
    ∧ same_but_bounds b b'
    ∧ (min_x b' ≤ min_x b ∧ max_x b ≤ max_x b')
    ∧ (min_y b' ≤ min_y b ∧ max_y b ≤ max_y b')
    ∧ 50 ≤ max_x b' - min_x b' + 1
    ∧ 50 ≤ max_y b' - min_y b' + 1
    ∧ length fills = size l.
Proof.
  intros Hl Hx Hy. exists (drawn b), (draw_fills sw sh b l).
  split; [apply Draw_spec; [exact Hl|lia|lia]|].
  split; [apply drawn_same_but_bounds|].
  pose proof (drawn_box_le b) as Hle. unfold box_le, bounds in Hle.
  destruct (drawn_min_size b) as [H1 H2].
  split; [tauto|]. split; [tauto|]. split; [exact H1|]. split; [exact H2|].
  apply length_draw_fills.
Qed.

Lemma Draw_enlarges_bounds_witness :
  ∃ b' fills, Draw 800 800 blinker_board = Some (b', fills)
    ∧ same_but_bounds blinker_board b'
    ∧ (min_x b' ≤ min_x blinker_board ∧ max_x blinker_board ≤ max_x b')
    ∧ (min_y b' ≤ min_y blinker_board ∧ max_y blinker_board ≤ max_y b')
    ∧ 50 ≤ max_x b' - min_x b' + 1
    ∧ 50 ≤ max_y b' - min_y b' + 1
    ∧ length fills = size (list_to_set blinker : gset Cell).
Proof.
  apply (Draw_enlarges_bounds 800 800 blinker_board (list_to_set blinker)).
  - reflexivity.
  - vm_compute. lia.
  - vm_compute. lia.
Defined.

(** X10. After a call of [Draw] that did not raise, a further call of
    [Draw], for any screen size, does not raise and leaves the board as it
    is: the enlargement of the bounds happens once. *)
Theorem Draw_twice (sw sh sw' sh' : Z) (b b' : Board) (fills : list Fill)
    (l : gset Cell) :
  live_cells b = Some l →
  Draw sw sh b = Some (b', fills) →
  ∃ fills', Draw sw' sh' b' = Some (b', fills')
    ∧ length fills' = length fills.
Proof.
  intros Hl HD.
  destruct (decide (max_x b - min_x b + 2 = 0)) as [Hx|Hx].
  { rewrite Draw_raises in HD by tauto. discriminate. }
  destruct (decide (max_y b - min_y b + 2 = 0)) as [Hy|Hy].
  { rewrite Draw_raises in HD by tauto. discriminate. }
  rewrite (Draw_spec sw sh b l Hl Hx Hy) in HD. injection HD as <- <-.
  destruct (drawn_min_size b) as [H1 H2].
  exists (draw_fills sw' sh' (drawn b) l).
  rewrite (Draw_spec sw' sh' (drawn b) l); [|rewrite live_cells_drawn; exact Hl|lia|lia].
  rewrite drawn_idemp, !length_draw_fills. split; reflexivity.
Qed.

Lemma Draw_twice_witness :
  ∃ fills', Draw 640 480 (drawn blinker_board)
            = Some (drawn blinker_board, fills')
    ∧ length fills' = length (draw_fills 800 800 blinker_board (list_to_set blinker)).
Proof.
  apply (Draw_twice 800 800 640 480 blinker_board (drawn blinker_board)
           (draw_fills 800 800 blinker_board (list_to_set blinker))
           (list_to_set blinker)).
  - reflexivity.
  - vm_compute. reflexivity.
Defined.

Lemma draw_pixels_bounds (sw sh : Z) (b : Board) :
  0 ≤ sw → 0 ≤ sh → min_x b ≤ max_x b → min_y b ≤ max_y b →
  0 ≤ draw_pixels sw sh b
  ∧ draw_pixels sw sh b * (max_x b - min_x b + 2) ≤ sw
  ∧ draw_pixels sw sh b * (max_y b - min_y b + 2) ≤ sh.
Proof.
  intros Hsw Hsh Hx Hy. unfold draw_pixels.
  set (w := max_x b - min_x b + 1 + 1). set (h := max_y b - min_y b + 1 + 1).
  assert (Hw : 0 < w) by (unfold w; lia).
  assert (Hh : 0 < h) by (unfold h; lia).
  pose proof (Z.div_pos sw w Hsw Hw).
  pose proof (Z.div_pos sh h Hsh Hh).
  pose proof (Z.mul_div_le sw w Hw).
  pose proof (Z.mul_div_le sh h Hh).
  replace (max_x b - min_x b + 2) with w by (unfold w; lia).
  replace (max_y b - min_y b + 2) with h by (unfold h; lia).
  split; [lia|]. split; nia.
Qed.

Lemma draw_pixels_pos (sw sh : Z) (b : Board) :
  min_x b ≤ max_x b → min_y b ≤ max_y b →
  max_x b - min_x b + 2 ≤ sw → max_y b - min_y b + 2 ≤ sh →
  0 < draw_pixels sw sh b.
Proof.
  intros Hx Hy Hsw Hsh. unfold draw_pixels.
  set (w := max_x b - min_x b + 1 + 1). set (h := max_y b - min_y b + 1 + 1).
  assert (Hw : 0 < w ≤ sw) by (unfold w; lia).
  assert (Hh : 0 < h ≤ sh) by (unfold h; lia).
  pose proof (Z.div_le_mono w sw w (proj1 Hw) (proj2 Hw)) as H1.
  pose proof (Z.div_le_mono h sh h (proj1 Hh) (proj2 Hh)) as H2.
  rewrite Z.div_same in H1, H2 by lia. lia.
Qed.

(** One coordinate of the corner of a rectangle: it is on the screen. *)
Lemma corner_on_screen (s lo hi x p : Z) :
  0 < s → lo ≤ x → x ≤ hi → 0 ≤ p → p * (hi - lo + 2) ≤ s →
  0 ≤ s `div` 2 + (x - (lo + hi) `div` 2) * p
  ∧ s `div` 2 + (x - (lo + hi) `div` 2) * p < s.
Proof.
  intros Hs Hlo Hhi Hp Hfit.
  pose proof (Z.div_mod s 2 ltac:(lia)).
  pose proof (Z.mod_pos_bound s 2 ltac:(lia)).
  pose proof (Z.div_mod (lo + hi) 2 ltac:(lia)).
  pose proof (Z.mod_pos_bound (lo + hi) 2 ltac:(lia)).
  set (d := x - (lo + hi) `div` 2) in *.
  assert (Hd1 : - (hi - lo) ≤ 2 * d) by (unfold d; lia).
  assert (Hd2 : 2 * d ≤ hi - lo + 1) by (unfold d; lia).
  assert (Hu : 2 * (d * p) ≤ (hi - lo + 1) * p) by nia.
  assert (Hl : - ((hi - lo) * p) ≤ 2 * (d * p)) by nia.
  split; [nia|].
  destruct (decide (p = 0)) as [->|Hne]; [lia|]. nia.
Qed.

Lemma nonempty_bounds_ordered (b : Board) (l : gset Cell) :
  box_contains (bounds b) l → size l ≠ 0%nat →
  min_x b ≤ max_x b ∧ min_y b ≤ max_y b.
Proof.
  intros Hbox Hs.
  destruct (size_pos_elem_of l ltac:(lia)) as [c Hc].
  specialize (Hbox c Hc). unfold in_box, bounds in Hbox. lia.
Qed.

Lemma int32_id (z : Z) : - 2 ^ 31 ≤ z → z < 2 ^ 31 → int32 z = z.
Proof.
  intros Hlo Hhi. unfold int32. rewrite Z.mod_small; lia.
Qed.

(** The rectangle of a live cell, when the screen is smaller than [2^31]
    both ways: no value is reduced, and the corner is on the screen. *)
Lemma cell_rect_in_range (sw sh : Z) (b : Board) (c : Cell) :
  0 < sw → sw < 2 ^ 31 → 0 < sh → sh < 2 ^ 31 →
  in_box (bounds b) c →
  let p := draw_pixels sw sh b in
  let cx := (min_x b + max_x b) `div` 2 in
  let cy := (min_y b + max_y b) `div` 2 in
  cell_rect sw sh cx cy p c
  = mkRect (sw `div` 2 + (c.1 - cx) * p) (sh `div` 2 + (c.2 - cy) * p) p p
  ∧ (0 ≤ sw `div` 2 + (c.1 - cx) * p ∧ sw `div` 2 + (c.1 - cx) * p < sw)
  ∧ (0 ≤ sh `div` 2 + (c.2 - cy) * p ∧ sh `div` 2 + (c.2 - cy) * p < sh)
  ∧ (0 ≤ p ∧ p ≤ sw ∧ p ≤ sh).
Proof.
  intros Hsw Hsw' Hsh Hsh' Hbox p cx cy. unfold in_box, bounds in Hbox.
  destruct (draw_pixels_bounds sw sh b) as (Hp & Hpx & Hpy); try lia.
  fold p in Hp, Hpx, Hpy.
  assert (Hpw : p ≤ sw) by nia. assert (Hph : p ≤ sh) by nia.
  pose proof (corner_on_screen sw (min_x b) (max_x b) c.1 p) as Hl.
  pose proof (corner_on_screen sh (min_y b) (max_y b) c.2 p) as Ht.
  fold cx in Hl. fold cy in Ht.
  specialize (Hl ltac:(lia) ltac:(lia) ltac:(lia) Hp Hpx).
  specialize (Ht ltac:(lia) ltac:(lia) ltac:(lia) Hp Hpy).
  split; [|split; [exact Hl|split; [exact Ht|lia]]].
  unfold cell_rect, pygame_Rect. rewrite !int32_id by lia. reflexivity.
Qed.

(** X11. On a screen of positive width and height, both below [2^31], for a
    board with live cells that lie within its bounds, [Draw] does not raise
    and fills with black one square for each live cell; the top-left corner
    of every square is on the screen, and its side is not negative and not
    larger than the screen. *)
Theorem Draw_corners_on_screen (sw sh : Z) (b : Board) (l : gset Cell) :
  live_cells b = Some l → size l ≠ 0%nat → box_contains (bounds b) l →
  0 < sw → sw < 2 ^ 31 → 0 < sh → sh < 2 ^ 31 →
  ∃ b' fills, Draw sw sh b = Some (b', fills)
    ∧ length fills = size l
    ∧ ∀ f, f ∈ fills →
        fill_color f = (0, 0, 0)
        ∧ ∃ r, fill_rect f = Some r
            ∧ (0 ≤ rect_left r ∧ rect_left r < sw)
            ∧ (0 ≤ rect_top r ∧ rect_top r < sh)
            ∧ rect_width r = rect_height r
            ∧ (0 ≤ rect_width r ∧ rect_width r ≤ sw ∧ rect_width r ≤ sh).
Proof.
  intros Hl Hs Hbox Hsw Hsw' Hsh Hsh'.
  destruct (nonempty_bounds_ordered b l Hbox Hs) as [Hx Hy].
  exists (drawn b), (draw_fills sw sh b l).
  split; [apply Draw_spec; [exact Hl|lia|lia]|].
  split; [apply length_draw_fills|].
  intros f Hf. unfold draw_fills in Hf.
  apply list_elem_of_fmap in Hf as (c & -> & Hc). simpl.
  split; [reflexivity|]. eexists; split; [reflexivity|].
  apply elem_of_elements in Hc. specialize (Hbox c Hc).
  destruct (cell_rect_in_range sw sh b c Hsw Hsw' Hsh Hsh' Hbox)
    as (-> & Hleft & Htop & Hside).
  simpl. split; [exact Hleft|]. split; [exact Htop|].
  split; [reflexivity|exact Hside].
Qed.

Lemma Draw_corners_on_screen_witness :
  ∃ b' fills, Draw 800 800 blinker_board = Some (b', fills)
    ∧ length fills = size (list_to_set blinker : gset Cell)
    ∧ ∀ f, f ∈ fills →
        fill_color f = (0, 0, 0)
        ∧ ∃ r, fill_rect f = Some r
            ∧ (0 ≤ rect_left r ∧ rect_left r < 800)
            ∧ (0 ≤ rect_top r ∧ rect_top r < 800)
            ∧ rect_width r = rect_height r
            ∧ (0 ≤ rect_width r ∧ rect_width r ≤ 800 ∧ rect_width r ≤ 800).
Proof.
  apply (Draw_corners_on_screen 800 800 blinker_board (list_to_set blinker)).
  - reflexivity.
  - vm_compute. lia.
  - apply box_contains_blinker.
  - lia.
  - lia.
  - lia.
  - lia.
Defined.

Lemma rects_disjoint_cells (a b p : Z) (c d : Cell) (cx cy : Z) :
  0 < p → c ≠ d →
  rects_disjoint
    (mkRect (a + (c.1 - cx) * p) (b + (c.2 - cy) * p) p p)
    (mkRect (a + (d.1 - cx) * p) (b + (d.2 - cy) * p) p p).
Proof.
  intros Hp Hne. destruct c as [x y], d as [u v].
  unfold rects_disjoint; simpl.
  assert (Hcase : x < u ∨ u < x ∨ y < v ∨ v < y).
  { destruct (decide (x = u)) as [->|]; [|lia].
    destruct (decide (y = v)) as [->|]; [|lia]. destruct Hne. reflexivity. }
  destruct Hcase as [H|[H|[H|H]]].
  - left. nia.
  - right; left. nia.
  - right; right; left. nia.
  - right; right; right. nia.
Qed.

(** X12. When the screen, smaller than [2^31] both ways, has at least one
    pixel for each column and row of the bounds and one more, every square
    that [Draw] fills has a positive side, and the squares of two different
    fills do not overlap. *)
Theorem Draw_squares_disjoint (sw sh : Z) (b : Board) (l : gset Cell) :
  live_cells b = Some l → size l ≠ 0%nat → box_contains (bounds b) l →
  max_x b - min_x b + 2 ≤ sw → sw < 2 ^ 31 →
  max_y b - min_y b + 2 ≤ sh → sh < 2 ^ 31 →
  ∃ b' fills, Draw sw sh b = Some (b', fills)
    ∧ length fills = size l
    ∧ (∀ f, f ∈ fills →
         ∃ r, fill_rect f = Some r
           ∧ 0 < rect_width r ∧ rect_height r = rect_width r)
    ∧ ∀ (i j : nat) f1 f2,
        i ≠ j → fills !! i = Some f1 → fills !! j = Some f2 →
        ∃ r1 r2, fill_rect f1 = Some r1 ∧ fill_rect f2 = Some r2
          ∧ rects_disjoint r1 r2.
Proof.
  intros Hl Hs Hbox Hsw Hsw' Hsh Hsh'.
  destruct (nonempty_bounds_ordered b l Hbox Hs) as [Hx Hy].
  pose proof (draw_pixels_pos sw sh b Hx Hy Hsw Hsh) as Hp.
  assert (Hrange : ∀ c, c ∈ l →
            cell_rect sw sh ((min_x b + max_x b) `div` 2)
              ((min_y b + max_y b) `div` 2) (draw_pixels sw sh b) c
            = mkRect (sw `div` 2 + (c.1 - (min_x b + max_x b) `div` 2)
                                   * draw_pixels sw sh b)
                     (sh `div` 2 + (c.2 - (min_y b + max_y b) `div` 2)
                                   * draw_pixels sw sh b)
                     (draw_pixels sw sh b) (draw_pixels sw sh b)).
  { intros c Hc.
    apply (cell_rect_in_range sw sh b c); try lia. exact (Hbox c Hc). }
  exists (drawn b), (draw_fills sw sh b l).
  split; [apply Draw_spec; [exact Hl|lia|lia]|].
  split; [apply length_draw_fills|]. split.
  - intros f Hf. unfold draw_fills in Hf.
    apply list_elem_of_fmap in Hf as (c & -> & Hc). simpl.
    apply elem_of_elements in Hc. rewrite (Hrange c Hc).
    eexists; split; [reflexivity|]. simpl. split; [exact Hp|reflexivity].
  - intros i j f1 f2 Hij H1 H2. unfold draw_fills in H1, H2.
    rewrite list_lookup_fmap in H1, H2.
    destruct (elements l !! i) as [c|] eqn:Ei; [|discriminate].
    destruct (elements l !! j) as [d|] eqn:Ej; [|discriminate].
    simpl in H1, H2. injection H1 as <-. injection H2 as <-. simpl.
    rewrite (Hrange c), (Hrange d)
      by (apply elem_of_elements, list_elem_of_lookup; eauto).
    eexists _, _. split; [reflexivity|]. split; [reflexivity|].
    apply rects_disjoint_cells; [exact Hp|].
    intros ->. apply Hij.
    exact (NoDup_lookup _ _ _ _ (NoDup_elements l) Ei Ej).
Qed.

Lemma Draw_squares_disjoint_witness :
  ∃ b' fills, Draw 800 800 blinker_board = Some (b', fills)
    ∧ length fills = size (list_to_set blinker : gset Cell)
    ∧ (∀ f, f ∈ fills →
         ∃ r, fill_rect f = Some r
           ∧ 0 < rect_width r ∧ rect_height r = rect_width r)
    ∧ ∀ (i j : nat) f1 f2,
        i ≠ j → fills !! i = Some f1 → fills !! j = Some f2 →
        ∃ r1 r2, fill_rect f1 = Some r1 ∧ fill_rect f2 = Some r2
          ∧ rects_disjoint r1 r2.
Proof.
  apply (Draw_squares_disjoint 800 800 blinker_board (list_to_set blinker)).
  - reflexivity.
  - vm_compute. lia.
  - apply box_contains_blinker.
  - simpl. lia.
  - lia.
  - simpl. lia.
  - lia.
Defined.

(** X13. On a board without live cells whose bounds are the initial ones,
    as built from an empty sequence, [Draw] fills nothing and replaces the
    bounds by [(-25, 25, -25, 25)]: the initial, inverted bounds do not
    outlive the first drawing. *)
Theorem Draw_extinct_initial_bounds (sw sh : Z) (b : Board) :
  live_cells b = Some ∅ → bounds b = (100, -100, 100, -100) →
  ∃ b', Draw sw sh b = Some (b', [])
    ∧ bounds b' = (-25, 25, -25, 25)
    ∧ same_but_bounds b b'.
Proof.
  intros Hl Hb. unfold bounds in Hb. injection Hb as Hmnx Hmxx Hmny Hmxy.
  exists (drawn b).
  rewrite (Draw_spec sw sh b ∅ Hl) by lia.
  split; [reflexivity|]. split; [|apply drawn_same_but_bounds].
  unfold drawn, bounds. rewrite Hmnx, Hmxx, Hmny, Hmxy. reflexivity.
Qed.

Lemma Draw_extinct_initial_bounds_witness :
  ∃ b', Draw 800 800 extinct_board = Some (b', [])
    ∧ bounds b' = (-25, 25, -25, 25)
    ∧ same_but_bounds extinct_board b'.
Proof.
  apply (Draw_extinct_initial_bounds 800 800 extinct_board); reflexivity.
Defined.

(** ** [Game.Tick] *)

Lemma generations_due_0 (tn tu : Z) : 0 ≤ tn → generations_due tn tu 0 = 0%nat.
Proof.
  intros H. unfold generations_due. destruct (decide _); [reflexivity|lia].
Qed.

Lemma generations_due_wait (tn tu : Z) (n : nat) :
  generations_due tn tu (S n) = generations_due (tn - 1) tu n.
Proof.
  unfold generations_due.
  destruct (decide (Z.of_nat (S n) ≤ tn)), (decide (Z.of_nat n ≤ tn - 1));
    try reflexivity; try lia.
  do 3 f_equal. lia.
Qed.

Lemma generations_due_fire (tu : Z) (n : nat) :
  0 ≤ tu → generations_due 0 tu (S n) = S (generations_due tu tu n).
Proof.
  intros Htu. unfold generations_due.
  destruct (decide (Z.of_nat (S n) ≤ 0)); [lia|].
  replace (Z.of_nat (S n) - 0 - 1) with (Z.of_nat n) by lia.
  destruct (decide (Z.of_nat n ≤ tu)).
  - rewrite Z.div_small by lia. reflexivity.
  - replace (Z.of_nat n) with ((Z.of_nat n - tu - 1) + 1 * (tu + 1)) at 1 by lia.
    rewrite Z.div_add by lia.
    pose proof (Z.div_pos (Z.of_nat n - tu - 1) (tu + 1) ltac:(lia) ltac:(lia)).
    lia.
Qed.

Lemma generations_due_initial (n : nat) :
  generations_due 100 2 n = generations_after n.
Proof.
  unfold generations_due, generations_after.
  destruct (decide (Z.of_nat n ≤ 100)) as [H|H].
  - rewrite (proj2 (Nat.leb_le n 100)) by lia. reflexivity.
  - rewrite (proj2 (Nat.leb_gt n 100)) by lia.
    apply Nat2Z.inj. rewrite Nat2Z.inj_div, Nat2Z.inj_sub by lia.
    change (Z.of_nat 98) with 98. change (Z.of_nat 3) with 3.
    change (2 + 1) with 3.
    replace (Z.of_nat n - 100 - 1) with ((Z.of_nat n - 98) + (-1) * 3) by lia.
    rewrite Z.div_add by lia.
    pose proof (Z.div_le_mono 3 (Z.of_nat n - 98) 3 ltac:(lia) ltac:(lia)) as Hq.
    rewrite Z.div_same in Hq by lia.
    rewrite Z2Nat.id by lia. lia.
Qed.

Lemma ticks_schedule (n : nat) :
  ∀ g : Game, 0 ≤ ttn g → 0 ≤ ttu g →
    board <$> ticks n g
    = steps (generations_due (ttn g) (ttu g) n) (board g).
Proof.
  induction n as [|n IH]; intros g Htn Htu.
  - rewrite generations_due_0 by exact Htn. reflexivity.
  - simpl ticks. unfold Tick.
    destruct (decide (ttn g = 0)) as [E|E].
    + rewrite bool_decide_eq_false_2 by tauto.
      rewrite E, generations_due_fire by exact Htu. simpl steps.
      destruct (Generate_next_state (board g)) as [b1|]; [|reflexivity].
      simpl. rewrite IH by (simpl; lia). reflexivity.
    + rewrite bool_decide_eq_true_2 by exact E. simpl.
      rewrite IH by (simpl; lia). simpl.
      rewrite generations_due_wait. reflexivity.
Qed.

(** [Game.__init__] returns for the sizes that are not negative, and then
    with the board it was given and its two counters at 100 and 2. *)
Lemma Game_init_Some (size : Z * Z) (b : Board) (g : Game) :
  Game_init size b = Some g ↔
  (0 ≤ size.1 ∧ 0 ≤ size.2)
  ∧ g = {| width := size.1; height := size.2; ttu := 2; ttn := 100;
           board := b |}.
Proof.
  destruct size as [w h]. unfold Game_init, set_mode. simpl.
  destruct (bool_decide (w < 0)) eqn:Ew; destruct (bool_decide (h < 0)) eqn:Eh;
    simpl;
    try apply bool_decide_eq_true in Ew; try apply bool_decide_eq_false in Ew;
    try apply bool_decide_eq_true in Eh; try apply bool_decide_eq_false in Eh;
    (split; [intros [= <-]|intros [[? ?] ->]]); try lia; try done.
  split; [lia|reflexivity].
Qed.

(** X14. On every game that [Game.__init__] returns, the first 100 calls of
    [Tick] only count down; the 101st computes the first generation and
    every third call after it computes one more: after [n] calls the board
    is the one that [(n - 98) / 3] calls of [Generate_next_state] give, and
    the initial one for [n <= 100]. *)
Theorem Tick_schedule (size : Z * Z) (b : Board) (g : Game) (n : nat) :
  Game_init size b = Some g →
  board <$> ticks n g
  = steps (if (n <=? 100)%nat then 0%nat else ((n - 98) / 3)%nat) b.
Proof.
  intros [_ ->]%Game_init_Some.
  rewrite ticks_schedule by (simpl; lia).
  simpl. rewrite generations_due_initial. reflexivity.
Qed.

Lemma Tick_schedule_witness :
  board <$> ticks 104 glider_game
  = steps (if (104 <=? 100)%nat then 0%nat else ((104 - 98) / 3)%nat)
      glider_board.
Proof.
  apply (Tick_schedule (800, 800) glider_board glider_game 104).
  reflexivity.
Defined.

(** ** [Game.RunGameLoop] *)

Lemma extremes_sane f s t S m M :
  least_of f s S m → greatest_of f t S M → (m = s ∧ M = t) ∨ m ≤ M.
Proof.
  intros (_ & A1 & E1) (_ & A2 & E2).
  destruct E1 as [->|(c & Hc & ->)].
  - destruct E2 as [->|(c & Hc & ->)]; [left; tauto|].
    right. apply A1. exact Hc.
  - right. apply A2. exact Hc.
Qed.

Lemma bounds_of_history_sane (H : gset Cell) (b : Board) :
  bounds_of_history H b → bounds_sane b.
Proof.
  intros (H1 & H2 & H3 & H4). split.
  - apply (extremes_sane _ _ _ _ _ _ H1 H2).
  - apply (extremes_sane _ _ _ _ _ _ H3 H4).
Qed.

Lemma widened_sane (b b' : Board) (L : gset Cell) :
  bounds_sane b → widened b L b' → bounds_sane b'.
Proof.
  intros [Sx Sy] (H1 & H2 & H3 & H4).
  pose proof (extremes_sane _ _ _ _ _ _ H1 H2) as Ex.
  pose proof (extremes_sane _ _ _ _ _ _ H3 H4) as Ey.
  destruct H1 as (L1 & _), H2 as (L2 & _), H3 as (L3 & _), H4 as (L4 & _).
  unfold bounds_sane. split; lia.
Qed.

Lemma box_contains_mono (bx bx' : Z * Z * Z * Z) (S : gset Cell) :
  box_contains bx S → box_le bx bx' → box_contains bx' S.
Proof.
  intros Hc Hle c Hin. specialize (Hc c Hin).
  destruct bx as [[[a1 a2] a3] a4], bx' as [[[c1 c2] c3] c4].
  unfold in_box, box_le in *. lia.
Qed.

Lemma box_le_trans (bx1 bx2 bx3 : Z * Z * Z * Z) :
  box_le bx1 bx2 → box_le bx2 bx3 → box_le bx1 bx3.
Proof.
  destruct bx1 as [[[a1 a2] a3] a4], bx2 as [[[c1 c2] c3] c4],
    bx3 as [[[d1 d2] d3] d4]. unfold box_le. lia.
Qed.

Lemma box_le_refl (bx : Z * Z * Z * Z) : box_le bx bx.
Proof. destruct bx as [[[a1 a2] a3] a4]. unfold box_le. lia. Qed.

Lemma Tick_pass (g : Game) (l : gset Cell) :
  pass_inv (board g) l → 0 ≤ ttn g → 0 ≤ ttu g →
  ∃ g1, Tick g = Some g1
    ∧ pass_inv (board g1)
        (Nat.iter (generations_due (ttn g) (ttu g) 1) next_live l)
    ∧ box_le (bounds (board g)) (bounds (board g1))
    ∧ width g1 = width g ∧ height g1 = height g ∧ ttu g1 = ttu g
    ∧ 0 ≤ ttn g1
    ∧ ∀ n, generations_due (ttn g) (ttu g) (S n)
           = (generations_due (ttn g1) (ttu g1) n
              + generations_due (ttn g) (ttu g) 1)%nat.
Proof.
  intros (Hl & Hbox & Hsane) Htn Htu. unfold Tick.
  destruct (decide (ttn g = 0)) as [E|E].
  - rewrite bool_decide_eq_false_2 by tauto.
    destruct (Generate_next_state_live (board g) l Hl) as (b1 & -> & Hl1 & Hw).
    simpl. eexists; split; [reflexivity|]. simpl.
    rewrite E, generations_due_fire, generations_due_0 by lia. simpl.
    destruct (widened_box_le _ _ _ Hw) as [Hle Hc].
    split; [split; [exact Hl1|split; [exact Hc|eapply widened_sane; eassumption]]|].
    split; [exact Hle|]. repeat split; try lia.
    intros n. rewrite generations_due_fire by lia. lia.
  - rewrite bool_decide_eq_true_2 by exact E.
    eexists; split; [reflexivity|]. simpl.
    rewrite generations_due_wait, generations_due_0 by lia. simpl.
    split; [split; [exact Hl|split; [exact Hbox|exact Hsane]]|].
    split; [exact (box_le_refl (bounds (board g)))|]. repeat split; try lia.
    intros n. rewrite generations_due_wait. lia.
Qed.

Lemma Game_Draw_pass (g : Game) (l : gset Cell) :
  pass_inv (board g) l →
  ∃ g2 frame, Game_Draw g = Some (g2, frame)
    ∧ pass_inv (board g2) l
    ∧ box_le (bounds (board g)) (bounds (board g2))
    ∧ (50 ≤ max_x (board g2) - min_x (board g2) + 1
       ∧ 50 ≤ max_y (board g2) - min_y (board g2) + 1)
    ∧ length frame = S (size l)
    ∧ width g2 = width g ∧ height g2 = height g ∧ ttu g2 = ttu g
    ∧ ttn g2 = ttn g.
Proof.
  intros (Hl & Hbox & [Sx Sy]). unfold Game_Draw.
  rewrite (Draw_spec _ _ _ l Hl) by lia. simpl.
  eexists _, _. split; [reflexivity|]. simpl.
  split.
  { split; [rewrite live_cells_drawn; exact Hl|].
    split; [|apply drawn_sane].
    eapply box_contains_mono; [exact Hbox|apply drawn_box_le]. }
  split; [apply drawn_box_le|]. split; [apply drawn_min_size|].
  rewrite length_draw_fills. repeat split.
Qed.

Lemma RunGameLoop_pass (pending : list (list event)) :
  ∀ (g : Game) (l : gset Cell),
    no_quit pending = true →
    pass_inv (board g) l → 0 ≤ ttn g → 0 ≤ ttu g →
    ∃ g' frames, RunGameLoop pending g = Some (false, g', frames)
      ∧ length frames = length pending
      ∧ pass_inv (board g')
          (Nat.iter (generations_due (ttn g) (ttu g) (length pending))
             next_live l)
      ∧ box_le (bounds (board g)) (bounds (board g'))
      ∧ (pending ≠ [] →
         50 ≤ max_x (board g') - min_x (board g') + 1
         ∧ 50 ≤ max_y (board g') - min_y (board g') + 1).
Proof.
  induction pending as [|evs rest IH]; intros g l Hq Hinv Htn Htu.
  - exists g, []. simpl. rewrite generations_due_0 by exact Htn.
    split; [reflexivity|]. split; [reflexivity|]. split; [exact Hinv|].
    split; [exact (box_le_refl (bounds (board g)))|].
    intros Hne. destruct Hne. reflexivity.
  - simpl in Hq. apply andb_true_iff in Hq as [Hev Hq].
    apply negb_true_iff in Hev. simpl RunGameLoop. rewrite Hev.
    destruct (Tick_pass g l Hinv Htn Htu)
      as (g1 & -> & Hinv1 & Hle1 & Ew1 & Eh1 & Eu1 & Htn1 & Hdue).
    simpl.
    destruct (Game_Draw_pass g1 _ Hinv1)
      as (g2 & frame & -> & Hinv2 & Hle2 & Hmin2 & _ & Ew2 & Eh2 & Eu2 & En2).
    simpl.
    destruct (IH g2 _ Hq Hinv2 ltac:(lia) ltac:(lia))
      as (g' & frames & -> & Hlen & Hinv' & Hle' & _).
    simpl. exists g', (frame :: frames).
    split; [reflexivity|]. split; [simpl; lia|].
    split.
    { simpl length. rewrite Hdue, Nat.iter_add. rewrite <- En2, <- Eu2.
      exact Hinv'. }
    split; [exact (box_le_trans _ _ _ Hle1 (box_le_trans _ _ _ Hle2 Hle'))|].
    intros _. destruct Hmin2 as [M1 M2].
    destruct (bounds (board g2)) as [[[a1 a2] a3] a4] eqn:E2.
    destruct (bounds (board g')) as [[[c1 c2] c3] c4] eqn:E'.
    unfold bounds in E2, E'. injection E2 as <- <- <- <-.
    injection E' as <- <- <- <-. unfold box_le in Hle'. lia.
Qed.

Lemma RunGameLoop_from_seed (cells : list Cell) (size : Z * Z)
    (pending : list (list event)) (g0 : Game) :
  no_quit pending = true →
  (Board_init cells ≫= Game_init size) = Some g0 →
  ∃ b0 g' frames, Board_init cells = Some b0
    ∧ RunGameLoop pending g0 = Some (false, g', frames)
    ∧ length frames = length pending
    ∧ pass_inv (board g')
        (Nat.iter (generations_after (length pending)) next_live
           (list_to_set cells))
    ∧ box_le (bounds b0) (bounds (board g'))
    ∧ (pending ≠ [] →
       50 ≤ max_x (board g') - min_x (board g') + 1
       ∧ 50 ≤ max_y (board g') - min_y (board g') + 1).
Proof.
  intros Hq Hg.
  destruct (Board_init_spec cells) as (b0 & Hb0 & _ & _ & Hl & _ & Hh).
  rewrite Hb0 in Hg. simpl in Hg. apply Game_init_Some in Hg as [_ ->].
  set (g0 := {| width := size.1; height := size.2; ttu := 2; ttn := 100;
                board := b0 |}).
  assert (Hinv : pass_inv (board g0) (list_to_set cells)).
  { split; [exact Hl|].
    split; [apply bounds_of_history_contains; exact Hh|].
    eapply bounds_of_history_sane; exact Hh. }
  destruct (RunGameLoop_pass pending g0 _ Hq Hinv)
    as (g' & frames & Hrun & Hlen & Hinv' & Hle & Hmin);
    [simpl; lia|simpl; lia|].
  simpl ttn in Hinv'. simpl ttu in Hinv'.
  rewrite generations_due_initial in Hinv'.
  exists b0, g', frames. auto 10.
Qed.

(** X15. A game built as in [main], for any seed and any screen size for
    which [Game.__init__] returns, runs any number of passes of
    [RunGameLoop] without raising as long as no [QUIT] event arrives; each
    pass draws one frame, and after [n] passes the live set is the seed
    advanced by [(n - 98) / 3] generations (by none for [n <= 100]). *)
Theorem RunGameLoop_runs_on_schedule (cells : list Cell) (size : Z * Z)
    (pending : list (list event)) (g0 : Game) :
  no_quit pending = true →
  (Board_init cells ≫= Game_init size) = Some g0 →
  ∃ g' frames, RunGameLoop pending g0 = Some (false, g', frames)
    ∧ length frames = length pending
    ∧ live_cells (board g')
      = Some (Nat.iter (generations_after (length pending)) next_live
                (list_to_set cells)).
Proof.
  intros Hq Hg.
  destruct (RunGameLoop_from_seed cells size pending g0 Hq Hg)
    as (b0 & g' & frames & Hb0 & Hrun & Hlen & (Hl & _) & _).
  exists g', frames. auto.
Qed.

Lemma RunGameLoop_runs_on_schedule_witness :
  ∃ g' frames,
    RunGameLoop (replicate 104 [other_event]) glider_game
    = Some (false, g', frames)
    ∧ length frames = length (replicate 104 [other_event])
    ∧ live_cells (board g')
      = Some (Nat.iter (generations_after (length (replicate 104 [other_event])))
                next_live (list_to_set initial_cells)).
Proof.
  apply (RunGameLoop_runs_on_schedule initial_cells (800, 800)
           (replicate 104 [other_event]) glider_game).
  - reflexivity.
  - vm_compute. reflexivity.
Defined.

(** X16. With the drawing of every pass taken into account, as long as no
    [QUIT] event arrives the bounds of the board of a running game contain
    its live cells and are never smaller than those of the board it was
    built with; from the first pass on they span at least 50 cells in width
    and in height. *)
Theorem RunGameLoop_bounds (cells : list Cell) (size : Z * Z)
    (pending : list (list event)) (g0 : Game) :
  no_quit pending = true →
  (Board_init cells ≫= Game_init size) = Some g0 →
  ∃ b0 g' frames l, Board_init cells = Some b0
    ∧ RunGameLoop pending g0 = Some (false, g', frames)
    ∧ live_cells (board g') = Some l
    ∧ (∀ x y, (x, y) ∈ l →
         (min_x (board g') ≤ x ∧ x ≤ max_x (board g'))
         ∧ (min_y (board g') ≤ y ∧ y ≤ max_y (board g')))
    ∧ (min_x (board g') ≤ min_x b0 ∧ max_x b0 ≤ max_x (board g'))
    ∧ (min_y (board g') ≤ min_y b0 ∧ max_y b0 ≤ max_y (board g'))
    ∧ (pending ≠ [] →
       50 ≤ max_x (board g') - min_x (board g') + 1
       ∧ 50 ≤ max_y (board g') - min_y (board g') + 1).
Proof.
  intros Hq Hg.
  destruct (RunGameLoop_from_seed cells size pending g0 Hq Hg)
    as (b0 & g' & frames & Hb0 & Hrun & _ & (Hl & Hbox & _) & Hle & Hmin).
  eexists b0, g', frames, _.
  split; [exact Hb0|]. split; [exact Hrun|]. split; [exact Hl|].
  split; [intros x y Hc; exact (Hbox (x, y) Hc)|].
  unfold box_le, bounds in Hle. tauto.
Qed.

Lemma RunGameLoop_bounds_witness :
  ∃ b0 g' frames l, Board_init initial_cells = Some b0
    ∧ RunGameLoop (replicate 104 []) glider_game = Some (false, g', frames)
    ∧ live_cells (board g') = Some l
    ∧ (∀ x y, (x, y) ∈ l →
         (min_x (board g') ≤ x ∧ x ≤ max_x (board g'))
         ∧ (min_y (board g') ≤ y ∧ y ≤ max_y (board g')))
    ∧ (min_x (board g') ≤ min_x b0 ∧ max_x b0 ≤ max_x (board g'))
    ∧ (min_y (board g') ≤ min_y b0 ∧ max_y b0 ≤ max_y (board g'))
    ∧ (replicate 104 ([] : list event) ≠ [] →
       50 ≤ max_x (board g') - min_x (board g') + 1
       ∧ 50 ≤ max_y (board g') - min_y (board g') + 1).
Proof.
  apply (RunGameLoop_bounds initial_cells (800, 800) (replicate 104 [])
           glider_game).
  - reflexivity.
  - vm_compute. reflexivity.
Defined.

Lemma existsb_ProcessEvent (evs : list event) :
  QUIT ∈ evs → existsb ProcessEvent evs = true.
Proof.
  intros H. apply existsb_exists. exists QUIT.
  split; [apply list_elem_of_In; exact H|reflexivity].
Qed.

(** X17. A [QUIT] event stops the loop at the start of its pass: the game
    is the one that the passes before it left, no [Tick] and no drawing
    is done for that pass, and later events are not looked at. *)
Theorem RunGameLoop_quit (pre post : list (list event)) (evs : list event)
    (g : Game) :
  QUIT ∈ evs →
  RunGameLoop (pre ++ evs :: post) g
  = (λ '(_, g', frames), (true, g', frames)) <$> RunGameLoop pre g.
Proof.
  intros Hq. apply existsb_ProcessEvent in Hq.
  revert g. induction pre as [|evs0 pre IH]; intros g; simpl.
  - rewrite Hq. reflexivity.
  - destruct (existsb ProcessEvent evs0); [reflexivity|].
    destruct (Tick g) as [g1|]; [|reflexivity]. simpl.
    destruct (Game_Draw g1) as [[g2 frame]|]; [|reflexivity]. simpl.
    rewrite IH.
    destruct (RunGameLoop pre g2) as [[[ex g'] frames]|]; reflexivity.
Qed.

Lemma RunGameLoop_quit_witness :
  RunGameLoop (replicate 2 [] ++ [other_event; QUIT] :: [[]]) glider_game
  = (λ '(_, g', frames), (true, g', frames))
    <$> RunGameLoop (replicate 2 []) glider_game.
Proof.
  apply (RunGameLoop_quit (replicate 2 []) [[]] [other_event; QUIT]
           glider_game).
  apply list_elem_of_In. simpl. tauto.
Defined.

(** ** Order and duplicates *)

(** X18. Construction looks only at which cells the seed holds: two
    sequences with the same members, in any order and with any repetitions,
    give the same board. *)
Theorem Board_init_seed_as_set (cells cells' : list Cell) :
  (∀ c, c ∈ cells ↔ c ∈ cells') →
  Board_init cells = Board_init cells'
  ∧ ∃ b, Board_init cells = Some b
      ∧ ∀ c, c ∈ cells ↔ ∃ l, live_cells b = Some l ∧ c ∈ l.
Proof.
  intros Hsame.
  assert (E : (list_to_set cells : gset Cell) = list_to_set cells').
  { apply set_eq. intros c. rewrite !elem_of_list_to_set. apply Hsame. }
  split; [unfold Board_init; rewrite E; reflexivity|].
  destruct (Board_init_spec cells) as (b & Hb & _ & _ & Hl & _).
  exists b. split; [exact Hb|]. intros c. split.
  - intros Hc. eexists; split; [exact Hl|]. apply elem_of_list_to_set. exact Hc.
  - intros (l & Hl' & Hc). rewrite Hl in Hl'. injection Hl' as <-.
    apply elem_of_list_to_set in Hc. exact Hc.
Qed.

Lemma Board_init_seed_as_set_witness :
  Board_init [(0, 0); (1, 0); (0, 0)] = Board_init [(1, 0); (0, 0)]
  ∧ ∃ b, Board_init [(0, 0); (1, 0); (0, 0)] = Some b
      ∧ ∀ c, c ∈ [(0, 0); (1, 0); (0, 0)]
             ↔ ∃ l, live_cells b = Some l ∧ c ∈ l.
Proof.
  apply (Board_init_seed_as_set [(0, 0); (1, 0); (0, 0)] [(1, 0); (0, 0)]).
  intros c. rewrite !elem_of_cons, !elem_of_nil. tauto.
Defined.

(** X19. The loop of [Generate_next_state] gives the same store in whatever
    order, and however often, the candidates are visited, provided the
    snapshot and the live set under construction are two objects: it reads
    the snapshot only and adds to the live set the candidates that pass the
    rule. *)
Theorem next_state_loop_any_order
    (lv pv : ref) (h : Store) (snap acc : gset Cell) (cs cs' : list Cell) :
  lv ≠ pv → h !! pv = Some snap → h !! lv = Some acc →
  (∀ c, c ∈ cs ↔ c ∈ cs') →
  ∃ h', next_state_loop lv pv h cs = Some h'
    ∧ next_state_loop lv pv h cs' = Some h'
    ∧ h' !! pv = Some snap
    ∧ ∃ new, h' !! lv = Some new
        ∧ ∀ c, c ∈ new ↔ c ∈ acc ∨ (c ∈ cs ∧ survives c snap = true).
Proof.
  intros Hne Hpv Hlv Hsame.
  rewrite (next_state_loop_spec lv pv snap cs Hne h acc Hpv Hlv).
  rewrite (next_state_loop_spec lv pv snap cs' Hne h acc Hpv Hlv).
  assert (E : (list_to_set (filter (λ c, survives c snap = true) cs) : gset Cell)
              = list_to_set (filter (λ c, survives c snap = true) cs')).
  { apply set_eq. intros c.
    rewrite !elem_of_list_to_set, !list_elem_of_filter, Hsame. reflexivity. }
  rewrite <- E. eexists; split; [reflexivity|]. split; [reflexivity|].
  split; [rewrite lookup_insert_ne by exact Hne; exact Hpv|].
  eexists; split; [apply lookup_insert_eq|].
  intros c. rewrite elem_of_union, elem_of_list_to_set, list_elem_of_filter.
  tauto.
Qed.

Lemma next_state_loop_any_order_witness :
  ∃ h', next_state_loop 2%positive 1%positive (store blinker_board)
          [(0, 1); (0, 0)] = Some h'
    ∧ next_state_loop 2%positive 1%positive (store blinker_board)
          [(0, 0); (0, 1); (0, 0)] = Some h'
    ∧ h' !! 1%positive = Some (list_to_set blinker)
    ∧ ∃ new, h' !! 2%positive = Some new
        ∧ ∀ c, c ∈ new ↔ c ∈ (∅ : gset Cell)
                 ∨ (c ∈ [(0, 1); (0, 0)]
                    ∧ survives c (list_to_set blinker) = true).
Proof.
  apply (next_state_loop_any_order 2%positive 1%positive (store blinker_board)
           (list_to_set blinker) ∅ [(0, 1); (0, 0)] [(0, 0); (0, 1); (0, 0)]).
  - lia.
  - reflexivity.
  - reflexivity.
  - intros c. rewrite !elem_of_cons, !elem_of_nil. tauto.
Defined.

(** ** The bounds after a drawing *)

(** [Draw] enlarges the bounds beyond the cells seen: on the board built
    from the single cell [(0, 0)] it leaves [(-25, 25, -25, 25)], which is
    not the smallest box within the initial limits that contains the cell.
    What holds of the bounds after calls of [Generate_next_state] alone
    does not hold once the board has been drawn. *)
Lemma drawn_seed_bounds_not_smallest :
  ∃ b b' fills, Board_init [(0, 0)] = Some b
    ∧ Draw 800 800 b = Some (b', fills)
    ∧ ever_live 0 b' = Some {[ (0, 0) ]}
    ∧ bounds b' = (-25, 25, -25, 25)
    ∧ ¬ smallest_sentinel_box {[ (0, 0) ]} (bounds b').
Proof.
  exists (board_at [(0, 0)] (0, 0, 0, 0)),
    (drawn (board_at [(0, 0)] (0, 0, 0, 0))),
    (draw_fills 800 800 (board_at [(0, 0)] (0, 0, 0, 0)) {[ (0, 0) ]}).
  split; [vm_compute; reflexivity|].
  split; [vm_compute; reflexivity|].
  split; [vm_compute; reflexivity|].
  split; [reflexivity|].
  intros (_ & _ & Hmin). specialize (Hmin (0, 0, 0, 0)).
  assert (Hc : box_contains (0, 0, 0, 0) {[ (0, 0) ]}).
  { intros c ->%elem_of_singleton. unfold in_box; simpl. lia. }
  specialize (Hmin Hc). unfold within_sentinel, box_le, bounds in Hmin.
  simpl in Hmin. lia.
Qed.
